(** * Pause-time records and the Inflater session of the JDK, embedded in Rocq

    Two leaves of the runtime are modelled here, each from its source:

    - [GcPauseTimeInfo] (gc/serial/gcPauseTimeInfo.hpp): three [double]
      fields with accessors, mutators and derived durations.  [double] is
      Rocq's primitive binary64 [float], so every definition computes.
    - [java.util.zip.Inflater]: the Java-side bookkeeping around the native
      zlib stream.  Java [int] and [long] are [Z] with the wrap-around
      written out, object references are [option], exceptions and the
      mutable fields are threaded by a small state-and-exception monad, and
      the native methods are the members of a type class. *)

From Stdlib Require Import ZArith Bool Lia Floats String.

(** ** The record of one pause (gcPauseTimeInfo.hpp) *)

Module PauseTime.

Local Open Scope float_scope.

Record GcPauseTimeInfo : Type := mkGcPauseTimeInfo {
  _start_time : float;
  _duration : float;
  _end_of_last_pause : float
}.

(** What a constructor call yields: the object, or the fatal report of a
    failed assertion with its message. *)
Inductive Construction : Type :=
| Built (p : GcPauseTimeInfo)
| Fatal (msg : string).

(** Modelled from the spec: HotSpot's [assert(cond, msg)] macro
    (utilities/debug.hpp is not among the sources).  The spec has a violated
    precondition "fatal to the caller": the rest of the constructor runs
    only when [cond] holds. *)
Definition assert (cond : bool) (msg : string) (k : Construction) : Construction :=
  if cond then k else Fatal msg.

(** [GcPauseTimeInfo(pause_start_time, pause_duration, end_of_last_pause)]:
    the member initialisers, then the three assertions in order.  C++
    [x >= 0] on doubles is [0 <=? x]; it is false for a NaN. *)
Definition new_GcPauseTimeInfo
  (pause_start_time pause_duration end_of_last_pause : float) : Construction :=
  let this := mkGcPauseTimeInfo pause_start_time pause_duration end_of_last_pause in
  assert (0 <=? pause_start_time) "pause_start_time must not be negative"
 (assert (0 <=? pause_duration) "pause_duration must not be negative"
 (assert (0 <=? end_of_last_pause) "end_of_last_pause must not be negative"
 (Built this))).

Definition end_of_last_pause (this : GcPauseTimeInfo) : float :=
  _end_of_last_pause this.

(** A mutator returns the value of the assignment and the updated object. *)
Definition set_end_of_last_pause (this : GcPauseTimeInfo) (end_of_last_pause : float)
  : float * GcPauseTimeInfo :=
  (end_of_last_pause,
   mkGcPauseTimeInfo (_start_time this) (_duration this) end_of_last_pause).

Definition start_time (this : GcPauseTimeInfo) : float :=
  _start_time this.

Definition set_start_time (this : GcPauseTimeInfo) (start_time : float)
  : float * GcPauseTimeInfo :=
  (start_time,
   mkGcPauseTimeInfo start_time (_duration this) (_end_of_last_pause this)).

Definition duration (this : GcPauseTimeInfo) : float :=
  _duration this.

Definition set_duration (this : GcPauseTimeInfo) (duration : float)
  : float * GcPauseTimeInfo :=
  (duration,
   mkGcPauseTimeInfo (_start_time this) duration (_end_of_last_pause this)).

Definition preceding_nongc_duration (this : GcPauseTimeInfo) : float :=
  _start_time this - _end_of_last_pause this.

Definition total_duration (this : GcPauseTimeInfo) : float :=
  preceding_nongc_duration this + _duration this.

Definition pause_end_time (this : GcPauseTimeInfo) : float :=
  _start_time this + _duration this.

End PauseTime.

(** ** Java integers, references and exceptions *)

Module Java.

Local Open Scope Z_scope.

(** A Java [int] is a [Z] in [[-2^31, 2^31)], a [long] one in
    [[-2^63, 2^63)]; arithmetic wraps around. *)
Definition is_int (z : Z) : Prop := - 2 ^ 31 <= z < 2 ^ 31.
Definition is_long (z : Z) : Prop := - 2 ^ 63 <= z < 2 ^ 63.

Definition iwrap (z : Z) : Z := (z + 2 ^ 31) mod 2 ^ 32 - 2 ^ 31.
Definition lwrap (z : Z) : Z := (z + 2 ^ 63) mod 2 ^ 64 - 2 ^ 63.

(** [int + int], [int - int], and [long + x] with [x] widened. *)
Definition iadd (x y : Z) : Z := iwrap (x + y).
Definition isub (x y : Z) : Z := iwrap (x - y).
Definition ladd (x y : Z) : Z := lwrap (x + y).

(** [x >>> n] on a [long]: the shift of the unsigned 64-bit pattern. *)
Definition lushr (x n : Z) : Z := Z.shiftr (x mod 2 ^ 64) n.

(** The exceptions the session can end in. *)
Inductive Throwable : Type :=
| NullPointerException
| ArrayIndexOutOfBoundsException
| IllegalArgumentException
| IllegalStateException (msg : string)
| ReadOnlyBufferException
| DataFormatException.

(** A [byte[]]: its identity and its length; the bytes themselves are only
    ever touched by the native codec. *)
Record ByteArray : Type := mkByteArray {
  array_id : nat;
  alength : Z
}.

(** Modelled from the spec: [Preconditions.checkFromIndexSize] with the
    array-index formatter (jdk.internal.util is not among the sources):
    "offset >= 0, offset+length <= data.length (else fails with an
    out-of-bounds error)".  [true] when the range is refused. *)
Definition outOfBounds (fromIndex size length : Z) : bool :=
  (length <? 0) || (fromIndex <? 0) || (size <? 0) || (size >? length - fromIndex).

End Java.

(** ** Byte buffers *)

Module Nio.

Import Java.
Local Open Scope Z_scope.

(** Modelled from the spec: the "external buffer view" is a
    [java.nio.ByteBuffer] (java.nio is not among the sources): a position
    and a limit with [0 <= position <= limit <= capacity], direct buffers
    with a memory address, the others with a backing array and offset. *)
Record ByteBuffer : Type := mkByteBuffer {
  position : Z;
  limit : Z;
  capacity : Z;
  isDirect : bool;
  isReadOnly : bool;
  address_of : Z;
  hb : ByteArray;
  offset : Z
}.

Definition wf_buffer (b : ByteBuffer) : Prop :=
  0 <= position b <= limit b /\ limit b <= capacity b /\ capacity b < 2 ^ 31.

Definition remaining (b : ByteBuffer) : Z :=
  let rem := limit b - position b in
  if rem >? 0 then rem else 0.

Definition hasRemaining (b : ByteBuffer) : bool := position b <? limit b.

(** The buffer with its position moved. *)
Definition moved (b : ByteBuffer) (newPosition : Z) : ByteBuffer :=
  mkByteBuffer newPosition (limit b) (capacity b) (isDirect b)
    (isReadOnly b) (address_of b) (hb b) (offset b).

(** [position(newPosition)]: refused outside [[0, limit]]. *)
Definition setPosition (b : ByteBuffer) (newPosition : Z) : option ByteBuffer :=
  if (newPosition >? limit b) || (newPosition <? 0) then None
  else Some (moved b newPosition).

(** A reference to a buffer object: the shared empty buffer of
    [ZipUtils.defaultBuf], or an object of the caller's at a heap location. *)
Inductive BufRef : Type :=
| DefaultBuf
| UserBuf (loc : nat).

(** Modelled from the spec: [ZipUtils.defaultBuf] (ZipUtils is not among
    the sources) stands for "no input": an empty buffer, [allocate(0)]. *)
Definition defaultBuf : ByteBuffer :=
  mkByteBuffer 0 0 0 false false 0 (mkByteArray 0 0) 0.

Definition Heap : Type := nat -> ByteBuffer.

Definition heap_get (h : Heap) (r : BufRef) : ByteBuffer :=
  match r with
  | DefaultBuf => defaultBuf
  | UserBuf l => h l
  end.

(** Only position 0 is ever accepted by the empty shared buffer, so a store
    to it changes nothing. *)
Definition heap_set (h : Heap) (r : BufRef) (b : ByteBuffer) : Heap :=
  match r with
  | DefaultBuf => h
  | UserBuf l => fun l' => if Nat.eqb l' l then b else h l'
  end.

End Nio.

(** ** The Inflater (java/util/zip/Inflater.java) *)

Module Zip.

Import Java Nio.
Local Open Scope Z_scope.

(** What a native inflate call does to its caller: it returns the packed
    [long], or it stores the two counts in the [inputConsumed] and
    [outputConsumed] fields of the Inflater and throws
    [DataFormatException]. *)
Inductive NativeOutcome : Type :=
| Returned (result : Z)
| DataFormatError (inputConsumed outputConsumed : Z).

(** Modelled from the spec: the native methods of the class (Inflater.c is
    not among the sources), "an external collaborator" with a state of its
    own behind the handle.  Each member has the arguments of the [native]
    declaration it stands for, after the state of the z_stream. *)
Class NativeCodec : Type := {
  ZStream : Type;
  init : bool -> Z * ZStream;
  native_setDictionary :
    ZStream -> Z -> ByteArray -> Z -> Z -> option Throwable * ZStream;
  setDictionaryBuffer :
    ZStream -> Z -> Z -> Z -> option Throwable * ZStream;
  inflateBytesBytes :
    ZStream -> Z -> option ByteArray -> Z -> Z -> ByteArray -> Z -> Z ->
    NativeOutcome * ZStream;
  inflateBytesBuffer :
    ZStream -> Z -> option ByteArray -> Z -> Z -> Z -> Z ->
    NativeOutcome * ZStream;
  inflateBufferBytes :
    ZStream -> Z -> Z -> Z -> ByteArray -> Z -> Z ->
    NativeOutcome * ZStream;
  inflateBufferBuffer :
    ZStream -> Z -> Z -> Z -> Z -> Z ->
    NativeOutcome * ZStream;
  native_getAdler : ZStream -> Z -> Z;
  native_reset : ZStream -> Z -> ZStream;
  native_end : ZStream -> Z -> ZStream
}.

(** The fields of an Inflater; [address] is the field of its
    [InflaterZStreamRef], non-zero while the native resource is in use. *)
Record Inflater : Type := mkInflater {
  address : Z;
  input : option BufRef;
  inputArray : option ByteArray;
  inputPos : Z;
  inputLim : Z;
  finished_ : bool;
  pendingOutput : bool;
  needDict : bool;
  bytesRead : Z;
  bytesWritten : Z;
  inputConsumed : Z;
  outputConsumed : Z
}.

Definition set_address (v : Z) (s : Inflater) : Inflater :=
  mkInflater v (input s) (inputArray s) (inputPos s) (inputLim s) (finished_ s)
    (pendingOutput s) (needDict s) (bytesRead s) (bytesWritten s)
    (inputConsumed s) (outputConsumed s).
Definition set_input (v : option BufRef) (s : Inflater) : Inflater :=
  mkInflater (address s) v (inputArray s) (inputPos s) (inputLim s) (finished_ s)
    (pendingOutput s) (needDict s) (bytesRead s) (bytesWritten s)
    (inputConsumed s) (outputConsumed s).
Definition set_inputArray (v : option ByteArray) (s : Inflater) : Inflater :=
  mkInflater (address s) (input s) v (inputPos s) (inputLim s) (finished_ s)
    (pendingOutput s) (needDict s) (bytesRead s) (bytesWritten s)
    (inputConsumed s) (outputConsumed s).
Definition set_inputPos (v : Z) (s : Inflater) : Inflater :=
  mkInflater (address s) (input s) (inputArray s) v (inputLim s) (finished_ s)
    (pendingOutput s) (needDict s) (bytesRead s) (bytesWritten s)
    (inputConsumed s) (outputConsumed s).
Definition set_inputLim (v : Z) (s : Inflater) : Inflater :=
  mkInflater (address s) (input s) (inputArray s) (inputPos s) v (finished_ s)
    (pendingOutput s) (needDict s) (bytesRead s) (bytesWritten s)
    (inputConsumed s) (outputConsumed s).
Definition set_finished (v : bool) (s : Inflater) : Inflater :=
  mkInflater (address s) (input s) (inputArray s) (inputPos s) (inputLim s) v
    (pendingOutput s) (needDict s) (bytesRead s) (bytesWritten s)
    (inputConsumed s) (outputConsumed s).
Definition set_pendingOutput (v : bool) (s : Inflater) : Inflater :=
  mkInflater (address s) (input s) (inputArray s) (inputPos s) (inputLim s)
    (finished_ s) v (needDict s) (bytesRead s) (bytesWritten s)
    (inputConsumed s) (outputConsumed s).
Definition set_needDict (v : bool) (s : Inflater) : Inflater :=
  mkInflater (address s) (input s) (inputArray s) (inputPos s) (inputLim s)
    (finished_ s) (pendingOutput s) v (bytesRead s) (bytesWritten s)
    (inputConsumed s) (outputConsumed s).
Definition set_bytesRead (v : Z) (s : Inflater) : Inflater :=
  mkInflater (address s) (input s) (inputArray s) (inputPos s) (inputLim s)
    (finished_ s) (pendingOutput s) (needDict s) v (bytesWritten s)
    (inputConsumed s) (outputConsumed s).
Definition set_bytesWritten (v : Z) (s : Inflater) : Inflater :=
  mkInflater (address s) (input s) (inputArray s) (inputPos s) (inputLim s)
    (finished_ s) (pendingOutput s) (needDict s) (bytesRead s) v
    (inputConsumed s) (outputConsumed s).
Definition set_inputConsumed (v : Z) (s : Inflater) : Inflater :=
  mkInflater (address s) (input s) (inputArray s) (inputPos s) (inputLim s)
    (finished_ s) (pendingOutput s) (needDict s) (bytesRead s) (bytesWritten s)
    v (outputConsumed s).
Definition set_outputConsumed (v : Z) (s : Inflater) : Inflater :=
  mkInflater (address s) (input s) (inputArray s) (inputPos s) (inputLim s)
    (finished_ s) (pendingOutput s) (needDict s) (bytesRead s) (bytesWritten s)
    (inputConsumed s) v.

Section WithCodec.

Context {codec : NativeCodec}.

(** Everything a method can read or write: the Inflater's fields, the
    caller's buffer objects, and the native stream behind the handle. *)
Record World : Type := mkWorld {
  this : Inflater;
  heap : Heap;
  zstream : ZStream
}.

(** A method ends normally with a value, or abruptly with an exception;
    either way it leaves a world behind. *)
Inductive Result (A : Type) : Type :=
| Normal (a : A) (w : World)
| Thrown (e : Throwable) (w : World).
Arguments Normal {A} a w.
Arguments Thrown {A} e w.

Definition after {A : Type} (r : Result A) : World :=
  match r with
  | Normal _ w => w
  | Thrown _ w => w
  end.

Definition M (A : Type) : Type := World -> Result A.

Definition ret {A : Type} (a : A) : M A := fun w => Normal a w.

Definition bind {A B : Type} (m : M A) (k : A -> M B) : M B :=
  fun w =>
    match m w with
    | Normal a w' => k a w'
    | Thrown e w' => Thrown e w'
    end.

Definition throw {A : Type} (e : Throwable) : M A := fun w => Thrown e w.

(** [try body catch (DataFormatException e) handler]; no other exception of
    the class is ever caught. *)
Definition catch_DataFormatException {A : Type} (body handler : M A) : M A :=
  fun w =>
    match body w with
    | Thrown DataFormatException w' => handler w'
    | r => r
    end.

Definition get {A : Type} (field : Inflater -> A) : M A :=
  fun w => Normal (field (this w)) w.

Definition modify (f : Inflater -> Inflater) : M unit :=
  fun w => Normal tt (mkWorld (f (this w)) (heap w) (zstream w)).

Definition when (c : bool) (m : M unit) : M unit :=
  if c then m else ret tt.

Declare Scope java_scope.
Delimit Scope java_scope with java.
Notation "x <- c1 ;; c2" := (bind c1 (fun x => c2))
  (at level 61, c1 at next level, right associativity) : java_scope.
Notation "c1 ;; c2" := (bind c1 (fun _ => c2))
  (at level 61, right associativity) : java_scope.
Local Open Scope java_scope.

(** Dereferencing a reference: [null] throws. *)
Definition nonNull {A : Type} (r : option A) : M A :=
  match r with
  | Some a => ret a
  | None => throw NullPointerException
  end.

Definition checkFromIndexSize (fromIndex size length : Z) : M unit :=
  if outOfBounds fromIndex size length
  then throw ArrayIndexOutOfBoundsException
  else ret tt.

(** Reading a buffer object, and [buffer.position(newPosition)]. *)
Definition buffer (r : BufRef) : M ByteBuffer :=
  fun w => Normal (heap_get (heap w) r) w.

Definition Buffer_position (r : BufRef) (newPosition : Z) : M unit :=
  fun w =>
    match setPosition (heap_get (heap w) r) newPosition with
    | Some b => Normal tt (mkWorld (this w) (heap_set (heap w) r b) (zstream w))
    | None => Thrown IllegalArgumentException w
    end.

(** A native inflate call: the stream moves on; a data-format error leaves
    its two counts in the out-parameter fields before it is thrown. *)
Definition call_inflate (native : ZStream -> NativeOutcome * ZStream) : M Z :=
  fun w =>
    let (outcome, z) := native (zstream w) in
    match outcome with
    | Returned result => Normal result (mkWorld (this w) (heap w) z)
    | DataFormatError consumed produced =>
        Thrown DataFormatException
          (mkWorld (set_outputConsumed produced (set_inputConsumed consumed (this w)))
             (heap w) z)
    end.

Definition call_void (native : ZStream -> option Throwable * ZStream) : M unit :=
  fun w =>
    let (outcome, z) := native (zstream w) in
    match outcome with
    | None => Normal tt (mkWorld (this w) (heap w) z)
    | Some e => Thrown e (mkWorld (this w) (heap w) z)
    end.

Definition call_step (native : ZStream -> ZStream) : M unit :=
  fun w => Normal tt (mkWorld (this w) (heap w) (native (zstream w))).

(** [new Inflater(nowrap)]: the native stream is initialised and every
    other field has its initialiser or default.  (The [assert addr != 0] of
    the reference's constructor is a Java assertion, off unless enabled; no
    property below depends on the address a codec hands out.) *)
Definition new_Inflater (nowrap : bool) (h : Heap) : World :=
  let (addr, z) := init nowrap in
  mkWorld (mkInflater addr (Some DefaultBuf) None 0 0 false false false 0 0 0 0) h z.

Definition ensureOpen : M unit :=
  addr <- get address ;;
  if addr =? 0
  then throw (IllegalStateException "Inflater has been closed")
  else ret tt.

(** [setInput(byte[] input, int off, int len)] *)
Definition setInput (input : option ByteArray) (off len : Z) : M unit :=
  arr <- nonNull input ;;
  checkFromIndexSize off len (alength arr) ;;
  modify (set_input None) ;;
  modify (set_inputArray (Some arr)) ;;
  modify (set_inputPos off) ;;
  modify (set_inputLim (iadd off len)).

(** [setInput(byte[] input)] *)
Definition setInput_bytes (input : option ByteArray) : M unit :=
  arr <- nonNull input ;;
  setInput (Some arr) 0 (alength arr).

(** [setInput(ByteBuffer input)] *)
Definition setInput_buffer (input : option BufRef) : M unit :=
  b <- nonNull input ;;
  modify (set_input (Some b)) ;;
  modify (set_inputArray None).

(** [setDictionary(byte[] dictionary, int off, int len)] *)
Definition setDictionary (dictionary : option ByteArray) (off len : Z) : M unit :=
  arr <- nonNull dictionary ;;
  checkFromIndexSize off len (alength arr) ;;
  ensureOpen ;;
  addr <- get address ;;
  call_void (fun z => native_setDictionary z addr arr off len) ;;
  modify (set_needDict false).

(** [setDictionary(byte[] dictionary)] *)
Definition setDictionary_bytes (dictionary : option ByteArray) : M unit :=
  arr <- nonNull dictionary ;;
  setDictionary (Some arr) 0 (alength arr).

(** [setDictionary(ByteBuffer dictionary)] *)
Definition setDictionary_buffer (dictionary : option BufRef) : M unit :=
  d <- nonNull dictionary ;;
  buf <- buffer d ;;
  let position_ := position buf in
  let remaining_ := Z.max (isub (limit buf) position_) 0 in
  ensureOpen ;;
  addr <- get address ;;
  (if isDirect buf
   then call_void (fun z =>
          setDictionaryBuffer z addr (ladd (address_of buf) position_) remaining_)
   else call_void (fun z =>
          native_setDictionary z addr (hb buf) (iadd (offset buf) position_) remaining_)) ;;
  Buffer_position d (iadd position_ remaining_) ;;
  modify (set_needDict false).

Definition getRemaining : M Z :=
  input_ <- get input ;;
  match input_ with
  | None =>
      lim <- get inputLim ;;
      pos <- get inputPos ;;
      ret (isub lim pos)
  | Some b =>
      buf <- buffer b ;;
      ret (remaining buf)
  end.

Definition needsInput : M bool :=
  input_ <- get input ;;
  match input_ with
  | None =>
      lim <- get inputLim ;;
      pos <- get inputPos ;;
      ret (lim =? pos)
  | Some b =>
      buf <- buffer b ;;
      ret (negb (hasRemaining buf))
  end.

Definition needsDictionary : M bool := get needDict.

Definition finished : M bool := get finished_.

(** The packed [long] a native inflate returns, as both inflate methods
    take it apart: [result & 0x7fff_ffffL] the input read,
    [result >>> 31 & 0x7fff_ffffL] the output written, [result >>> 62 & 1]
    finished, [result >>> 63 & 1] dictionary needed. *)
Definition result_read (result : Z) : Z := Z.land result 2147483647.
Definition result_written (result : Z) : Z := Z.land (lushr result 31) 2147483647.
Definition result_finished (result : Z) : bool :=
  negb (Z.land (lushr result 62) 1 =? 0).
Definition result_needDict (result : Z) : bool :=
  negb (Z.land (lushr result 63) 1 =? 0).

(** [inflate(byte[] output, int off, int len)].  The sessions acquired and
    released around a direct buffer ([NIO_ACCESS], in [finally] blocks)
    touch no state of the model. *)
Definition inflate (output : option ByteArray) (off len : Z) : M Z :=
  out <- nonNull output ;;
  checkFromIndexSize off len (alength out) ;;
  ensureOpen ;;
  input_ <- get input ;;
  r <- catch_DataFormatException
         (match input_ with
          | None =>
              inputPos_ <- get inputPos ;;
              result <- catch_DataFormatException
                (addr <- get address ;;
                 arr <- get inputArray ;;
                 lim <- get inputLim ;;
                 call_inflate (fun z =>
                   inflateBytesBytes z addr arr inputPos_ (isub lim inputPos_)
                     out off len))
                (consumed <- get inputConsumed ;;
                 modify (set_inputPos (iadd inputPos_ consumed)) ;;
                 throw DataFormatException) ;;
              ret (result, inputPos_)
          | Some b =>
              buf <- buffer b ;;
              let inputPos_ := position buf in
              result <- catch_DataFormatException
                (let inputRem := Z.max (isub (limit buf) inputPos_) 0 in
                 addr <- get address ;;
                 if isDirect buf
                 then call_inflate (fun z =>
                        inflateBufferBytes z addr (ladd (address_of buf) inputPos_)
                          inputRem out off len)
                 else call_inflate (fun z =>
                        inflateBytesBytes z addr (Some (hb buf))
                          (iadd (offset buf) inputPos_) inputRem out off len))
                (consumed <- get inputConsumed ;;
                 Buffer_position b (iadd inputPos_ consumed) ;;
                 throw DataFormatException) ;;
              ret (result, inputPos_)
          end)
         (consumed <- get inputConsumed ;;
          total <- get bytesRead ;;
          modify (set_bytesRead (ladd total consumed)) ;;
          modify (set_inputConsumed 0) ;;
          written <- get outputConsumed ;;
          total <- get bytesWritten ;;
          modify (set_bytesWritten (ladd total written)) ;;
          modify (set_outputConsumed 0) ;;
          throw DataFormatException) ;;
  let (result, inputPos_) := r : Z * Z in
  let read := result_read result in
  let written := result_written result in
  when (result_finished result) (modify (set_finished true)) ;;
  fin <- get finished_ ;;
  (if (written =? len) && negb fin
   then modify (set_pendingOutput true)
   else modify (set_pendingOutput false)) ;;
  when (result_needDict result) (modify (set_needDict true)) ;;
  match input_ with
  | Some b => when (read >? 0) (Buffer_position b (iadd inputPos_ read))
  | None => modify (set_inputPos (iadd inputPos_ read))
  end ;;
  total <- get bytesWritten ;;
  modify (set_bytesWritten (ladd total written)) ;;
  total <- get bytesRead ;;
  modify (set_bytesRead (ladd total read)) ;;
  ret written.

(** [inflate(byte[] output)] *)
Definition inflate_bytes (output : option ByteArray) : M Z :=
  out <- nonNull output ;;
  inflate (Some out) 0 (alength out).

(** [inflate(ByteBuffer output)] *)
Definition inflate_buffer (output : option BufRef) : M Z :=
  out <- nonNull output ;;
  obuf <- buffer out ;;
  if isReadOnly obuf then throw ReadOnlyBufferException else
  ensureOpen ;;
  input_ <- get input ;;
  let outputPos := position obuf in
  let outputRem := Z.max (isub (limit obuf) outputPos) 0 in
  r <- catch_DataFormatException
         (match input_ with
          | None =>
              inputPos_ <- get inputPos ;;
              result <- catch_DataFormatException
                (addr <- get address ;;
                 arr <- get inputArray ;;
                 lim <- get inputLim ;;
                 if isDirect obuf
                 then call_inflate (fun z =>
                        inflateBytesBuffer z addr arr inputPos_ (isub lim inputPos_)
                          (ladd (address_of obuf) outputPos) outputRem)
                 else call_inflate (fun z =>
                        inflateBytesBytes z addr arr inputPos_ (isub lim inputPos_)
                          (hb obuf) (iadd (offset obuf) outputPos) outputRem))
                (consumed <- get inputConsumed ;;
                 modify (set_inputPos (iadd inputPos_ consumed)) ;;
                 throw DataFormatException) ;;
              ret (result, inputPos_)
          | Some b =>
              buf <- buffer b ;;
              let inputPos_ := position buf in
              let inputRem := Z.max (isub (limit buf) inputPos_) 0 in
              result <- catch_DataFormatException
                (addr <- get address ;;
                 if isDirect buf
                 then
                   if isDirect obuf
                   then call_inflate (fun z =>
                          inflateBufferBuffer z addr
                            (ladd (address_of buf) inputPos_) inputRem
                            (ladd (address_of obuf) outputPos) outputRem)
                   else call_inflate (fun z =>
                          inflateBufferBytes z addr
                            (ladd (address_of buf) inputPos_) inputRem
                            (hb obuf) (iadd (offset obuf) outputPos) outputRem)
                 else
                   if isDirect obuf
                   then call_inflate (fun z =>
                          inflateBytesBuffer z addr (Some (hb buf))
                            (iadd (offset buf) inputPos_) inputRem
                            (ladd (address_of obuf) outputPos) outputRem)
                   else call_inflate (fun z =>
                          inflateBytesBytes z addr (Some (hb buf))
                            (iadd (offset buf) inputPos_) inputRem
                            (hb obuf) (iadd (offset obuf) outputPos) outputRem))
                (consumed <- get inputConsumed ;;
                 Buffer_position b (iadd inputPos_ consumed) ;;
                 throw DataFormatException) ;;
              ret (result, inputPos_)
          end)
         (consumed <- get inputConsumed ;;
          total <- get bytesRead ;;
          modify (set_bytesRead (ladd total consumed)) ;;
          modify (set_inputConsumed 0) ;;
          written <- get outputConsumed ;;
          Buffer_position out (iadd outputPos written) ;;
          total <- get bytesWritten ;;
          modify (set_bytesWritten (ladd total written)) ;;
          modify (set_outputConsumed 0) ;;
          throw DataFormatException) ;;
  let (result, inputPos_) := r : Z * Z in
  let read := result_read result in
  let written := result_written result in
  when (result_finished result) (modify (set_finished true)) ;;
  when (result_needDict result) (modify (set_needDict true)) ;;
  match input_ with
  | Some b => Buffer_position b (iadd inputPos_ read)
  | None => modify (set_inputPos (iadd inputPos_ read))
  end ;;
  Buffer_position out (iadd outputPos written) ;;
  total <- get bytesWritten ;;
  modify (set_bytesWritten (ladd total written)) ;;
  total <- get bytesRead ;;
  modify (set_bytesRead (ladd total read)) ;;
  ret written.

Definition getAdler : M Z :=
  ensureOpen ;;
  addr <- get address ;;
  fun w => Normal (native_getAdler (zstream w) addr) w.

Definition getBytesRead : M Z :=
  ensureOpen ;;
  get bytesRead.

(** [(int) getBytesRead()] *)
Definition getTotalIn : M Z :=
  n <- getBytesRead ;;
  ret (iwrap n).

Definition getBytesWritten : M Z :=
  ensureOpen ;;
  get bytesWritten.

Definition getTotalOut : M Z :=
  n <- getBytesWritten ;;
  ret (iwrap n).

Definition reset : M unit :=
  ensureOpen ;;
  addr <- get address ;;
  call_step (fun z => native_reset z addr) ;;
  modify (set_input (Some DefaultBuf)) ;;
  modify (set_inputArray None) ;;
  modify (set_finished false) ;;
  modify (set_needDict false) ;;
  modify (set_bytesWritten 0) ;;
  modify (set_bytesRead 0).

(** [InflaterZStreamRef.run()]: the address is zeroed, and the native
    resource released if it was in use. *)
Definition InflaterZStreamRef_run : M unit :=
  addr <- get address ;;
  modify (set_address 0) ;;
  when (negb (addr =? 0)) (call_step (fun z => native_end z addr)).

(** Modelled from the spec: [Cleanable.clean()] (java.lang.ref is not among
    the sources) "releases the native handle exactly once": the first call
    runs the registered action, here [run()] of the reference itself. *)
Definition InflaterZStreamRef_clean : M unit := InflaterZStreamRef_run.

(** [end()]; [end] is a word of Rocq's, hence the underscore. *)
Definition end_ : M unit :=
  addr <- get address ;;
  if addr =? 0 then ret tt else
  InflaterZStreamRef_clean ;;
  modify (set_input (Some DefaultBuf)) ;;
  modify (set_inputArray None).

Definition close : M unit := end_.

Definition hasPendingOutput : M bool := get pendingOutput.

(** *** The native call of an inflate

    Which native method an inflate call invokes from a world, and with what
    arguments: the dispatch of the two methods above on the kind of the
    input and of the output, without the bookkeeping around it. *)

(** The input length handed to the native codec. *)
Definition input_length (w : World) : Z :=
  match input (this w) with
  | None => isub (inputLim (this w)) (inputPos (this w))
  | Some b =>
      let buf := heap_get (heap w) b in
      Z.max (isub (limit buf) (position buf)) 0
  end.

(** The position of the active input source. *)
Definition input_position (w : World) : Z :=
  match input (this w) with
  | None => inputPos (this w)
  | Some b => position (heap_get (heap w) b)
  end.

(** The output length handed to the native codec by [inflate_buffer]. *)
Definition output_length (w : World) (out : BufRef) : Z :=
  let obuf := heap_get (heap w) out in
  Z.max (isub (limit obuf) (position obuf)) 0.

Definition inflate_native (w : World) (out : ByteArray) (off len : Z)
  : NativeOutcome * ZStream :=
  let s := this w in
  match input s with
  | None =>
      inflateBytesBytes (zstream w) (address s) (inputArray s) (inputPos s)
        (isub (inputLim s) (inputPos s)) out off len
  | Some b =>
      let buf := heap_get (heap w) b in
      let inputRem := Z.max (isub (limit buf) (position buf)) 0 in
      if isDirect buf
      then inflateBufferBytes (zstream w) (address s)
             (ladd (address_of buf) (position buf)) inputRem out off len
      else inflateBytesBytes (zstream w) (address s) (Some (hb buf))
             (iadd (offset buf) (position buf)) inputRem out off len
  end.

Definition inflate_buffer_native (w : World) (out : BufRef)
  : NativeOutcome * ZStream :=
  let s := this w in
  let obuf := heap_get (heap w) out in
  let outputPos := position obuf in
  let outputRem := Z.max (isub (limit obuf) outputPos) 0 in
  match input s with
  | None =>
      if isDirect obuf
      then inflateBytesBuffer (zstream w) (address s) (inputArray s) (inputPos s)
             (isub (inputLim s) (inputPos s))
             (ladd (address_of obuf) outputPos) outputRem
      else inflateBytesBytes (zstream w) (address s) (inputArray s) (inputPos s)
             (isub (inputLim s) (inputPos s))
             (hb obuf) (iadd (offset obuf) outputPos) outputRem
  | Some b =>
      let buf := heap_get (heap w) b in
      let inputRem := Z.max (isub (limit buf) (position buf)) 0 in
      if isDirect buf
      then
        if isDirect obuf
        then inflateBufferBuffer (zstream w) (address s)
               (ladd (address_of buf) (position buf)) inputRem
               (ladd (address_of obuf) outputPos) outputRem
        else inflateBufferBytes (zstream w) (address s)
               (ladd (address_of buf) (position buf)) inputRem
               (hb obuf) (iadd (offset obuf) outputPos) outputRem
      else
        if isDirect obuf
        then inflateBytesBuffer (zstream w) (address s) (Some (hb buf))
               (iadd (offset buf) (position buf)) inputRem
               (ladd (address_of obuf) outputPos) outputRem
        else inflateBytesBytes (zstream w) (address s) (Some (hb buf))
               (iadd (offset buf) (position buf)) inputRem
               (hb obuf) (iadd (offset obuf) outputPos) outputRem
  end.

(** The active input source is well formed: a buffer as every
    [ByteBuffer] is, an array range as [setInput] leaves it. *)
Definition wf_input (w : World) : Prop :=
  match input (this w) with
  | None => 0 <= inputPos (this w) <= inputLim (this w) /\ inputLim (this w) < 2 ^ 31
  | Some b => wf_buffer (heap_get (heap w) b)
  end.

(** *** The states a session can reach *)

(** A call of a public method with its arguments. *)
Inductive Call : Type :=
| call_setInput (input : option ByteArray) (off len : Z)
| call_setInput_bytes (input : option ByteArray)
| call_setInput_buffer (input : option BufRef)
| call_setDictionary (dictionary : option ByteArray) (off len : Z)
| call_setDictionary_bytes (dictionary : option ByteArray)
| call_setDictionary_buffer (dictionary : option BufRef)
| call_getRemaining
| call_needsInput
| call_needsDictionary
| call_finished
| call_inflate_range (output : option ByteArray) (off len : Z)
| call_inflate_bytes (output : option ByteArray)
| call_inflate_buffer (output : option BufRef)
| call_getAdler
| call_getTotalIn
| call_getBytesRead
| call_getTotalOut
| call_getBytesWritten
| call_reset
| call_end
| call_close
| call_hasPendingOutput.

(** The world a call leaves behind, however it ends. *)
Definition run (c : Call) (w : World) : World :=
  match c with
  | call_setInput a off len => after (setInput a off len w)
  | call_setInput_bytes a => after (setInput_bytes a w)
  | call_setInput_buffer b => after (setInput_buffer b w)
  | call_setDictionary a off len => after (setDictionary a off len w)
  | call_setDictionary_bytes a => after (setDictionary_bytes a w)
  | call_setDictionary_buffer b => after (setDictionary_buffer b w)
  | call_getRemaining => after (getRemaining w)
  | call_needsInput => after (needsInput w)
  | call_needsDictionary => after (needsDictionary w)
  | call_finished => after (finished w)
  | call_inflate_range a off len => after (inflate a off len w)
  | call_inflate_bytes a => after (inflate_bytes a w)
  | call_inflate_buffer b => after (inflate_buffer b w)
  | call_getAdler => after (getAdler w)
  | call_getTotalIn => after (getTotalIn w)
  | call_getBytesRead => after (getBytesRead w)
  | call_getTotalOut => after (getTotalOut w)
  | call_getBytesWritten => after (getBytesWritten w)
  | call_reset => after (reset w)
  | call_end => after (end_ w)
  | call_close => after (close w)
  | call_hasPendingOutput => after (hasPendingOutput w)
  end.

(** The [int] arguments that end up in a field are Java ints. *)
Definition well_typed (c : Call) : Prop :=
  match c with
  | call_setInput _ off len => is_int off /\ is_int len
  | _ => True
  end.

(** A session starts at its construction; from then on the methods are
    called, and between two calls the caller may do anything to the buffer
    objects it owns.  Every method body runs under the lock of [zsRef], so
    the states another thread can see are the ones between calls. *)
Inductive reachable : World -> Prop :=
| reachable_new (nowrap : bool) (h : Heap) :
    reachable (new_Inflater nowrap h)
| reachable_call (c : Call) (w : World) :
    reachable w -> well_typed c -> reachable (run c w)
| reachable_heap (h : Heap) (w : World) :
    reachable w -> reachable (mkWorld (this w) h (zstream w)).

(** Exactly one of the two input fields is set. *)
Definition one_input_source (s : Inflater) : Prop :=
  (input s = None /\ inputArray s <> None) \/
  (input s <> None /\ inputArray s = None).

(** The invariant of the reachable states: one input source, and the two
    [int] fields of the array range within the range of [int]. *)
Definition session_inv (s : Inflater) : Prop :=
  one_input_source s /\ is_int (inputPos s) /\ is_int (inputLim s).

(** The input source is the given one, and [inputPos] is an int. *)
Definition source_is (i : option BufRef) (a : option ByteArray) (l : Z)
  (s : Inflater) : Prop :=
  input s = i /\ inputArray s = a /\ inputLim s = l /\ is_int (inputPos s).

(** The flags and counters that describe the output side of a session. *)
Definition output_state (s : Inflater) : bool * bool * bool * Z * Z :=
  (finished_ s, needDict s, pendingOutput s, bytesRead s, bytesWritten s).

(** The exception of [ensureOpen]. *)
Definition closed : Throwable := IllegalStateException "Inflater has been closed".

(** [keeps Q m]: when [Q] holds of the Inflater's fields before [m], it
    holds after, however [m] ends. *)
Definition keeps (Q : Inflater -> Prop) {A : Type} (m : M A) : Prop :=
  forall w, Q (this w) -> Q (this (after (m w))).

(** The native call of a [setDictionary(ByteBuffer)], by the kind of the
    buffer. *)
Definition setDictionary_buffer_native (w : World) (d : BufRef)
  : option Throwable * ZStream :=
  let buf := heap_get (heap w) d in
  let remaining_ := Z.max (isub (limit buf) (position buf)) 0 in
  if isDirect buf
  then setDictionaryBuffer (zstream w) (address (this w))
         (ladd (address_of buf) (position buf)) remaining_
  else native_setDictionary (zstream w) (address (this w)) (hb buf)
         (iadd (offset buf) (position buf)) remaining_.

(** The sessions that never call [inflate(ByteBuffer)], as a stream that
    reads through the byte-array method does. *)
Definition is_buffer_inflate (c : Call) : bool :=
  match c with
  | call_inflate_buffer _ => true
  | _ => false
  end.

Inductive reachable_by_array_inflate : World -> Prop :=
| by_array_new (nowrap : bool) (h : Heap) :
    reachable_by_array_inflate (new_Inflater nowrap h)
| by_array_call (c : Call) (w : World) :
    reachable_by_array_inflate w -> is_buffer_inflate c = false ->
    reachable_by_array_inflate (run c w)
| by_array_heap (h : Heap) (w : World) :
    reachable_by_array_inflate w ->
    reachable_by_array_inflate (mkWorld (this w) h (zstream w)).

(** A pending output is only ever announced on a stream that has not
    finished. *)
Definition pending_means_unfinished (s : Inflater) : Prop :=
  pendingOutput s = true -> finished_ s = false.

End WithCodec.

Arguments Normal {codec A} a w.
Arguments Thrown {codec A} e w.

End Zip.

(** ** A scripted codec

    A codec to run the session on: its stream is the list of the outcomes
    its next inflate calls will have, whatever their arguments; when the
    script is over, a call returns 0 (nothing read, nothing written). *)

Module Scripted.

Import Java Nio Zip.
Local Open Scope Z_scope.

Definition play (script : list NativeOutcome) : NativeOutcome * list NativeOutcome :=
  match script with
  | nil => (Returned 0, nil)
  | cons o rest => (o, rest)
  end.

Definition scripted : NativeCodec := {|
  ZStream := list NativeOutcome;
  init := fun _ => (4096, nil);
  native_setDictionary := fun z _ _ _ _ => (None, z);
  setDictionaryBuffer := fun z _ _ _ => (None, z);
  inflateBytesBytes := fun z _ _ _ _ _ _ _ => play z;
  inflateBytesBuffer := fun z _ _ _ _ _ _ => play z;
  inflateBufferBytes := fun z _ _ _ _ _ _ => play z;
  inflateBufferBuffer := fun z _ _ _ _ _ => play z;
  native_getAdler := fun _ _ => 1;
  native_reset := fun z _ => z;
  native_end := fun _ _ => nil
|}.

(** The packed result of a native inflate. *)
Definition pack (read written : Z) (fin dict : bool) : Z :=
  read + written * 2 ^ 31 + (if fin then 2 ^ 62 else 0) - (if dict then 2 ^ 63 else 0).

(** A session of the scripted codec: open at address 4096, with the given
    input fields and flags, counters at [r] and [wr]. *)
Definition session (i : option BufRef) (a : option ByteArray) (pos lim : Z)
  (pending : bool) (r wr : Z) : Inflater :=
  mkInflater 4096 i a pos lim false pending false r wr 0 0.

(** A heap whose every location holds a writable array-backed buffer of
    capacity 16 with position 2 and limit 10. *)
Definition heap16 : Heap :=
  fun l => mkByteBuffer 2 10 16 false false 0 (mkByteArray l 16) 0.

Definition bytes8 : ByteArray := mkByteArray 100 8.
Definition bytes32 : ByteArray := mkByteArray 101 32.

(** A new session, and the same after [end()]. *)
Definition fresh : @World scripted := @new_Inflater scripted false heap16.
Definition ended : @World scripted := @after scripted unit (end_ fresh).

(** An open session reading the range 2..10 of an array, and one reading
    the buffer at location 0, with 100 bytes read and 200 written so far
    and the given script ahead. *)
Definition array_fed (pending : bool) (script : list NativeOutcome) : @World scripted :=
  @mkWorld scripted (session None (Some bytes32) 2 10 pending 100 200) heap16 script.
Definition buffer_fed (pending : bool) (script : list NativeOutcome) : @World scripted :=
  @mkWorld scripted (session (Some (UserBuf 0)) None 0 0 pending 100 200) heap16 script.

(** A codec like [scripted] whose [setDictionary] natives refuse every
    dictionary. *)
Definition refusing : NativeCodec := {|
  ZStream := list NativeOutcome;
  init := fun _ => (4096, nil);
  native_setDictionary := fun z _ _ _ _ => (Some IllegalArgumentException, z);
  setDictionaryBuffer := fun z _ _ _ => (Some IllegalArgumentException, z);
  inflateBytesBytes := fun z _ _ _ _ _ _ _ => play z;
  inflateBytesBuffer := fun z _ _ _ _ _ _ => play z;
  inflateBufferBytes := fun z _ _ _ _ _ _ => play z;
  inflateBufferBuffer := fun z _ _ _ _ _ => play z;
  native_getAdler := fun _ _ => 1;
  native_reset := fun z _ => z;
  native_end := fun _ _ => nil
|}.

(** An open session that was asked for a dictionary, on either codec. *)
Definition wanting_dictionary : @World scripted :=
  @mkWorld scripted (set_needDict true (session None (Some bytes32) 2 10 false 100 200))
    heap16 nil.
Definition wanting_dictionary_refused : @World refusing :=
  @mkWorld refusing (set_needDict true (session None (Some bytes32) 2 10 false 100 200))
    heap16 nil.

(** The session after a byte-array inflate that met the end of the stream
    and a request for a dictionary at once. *)
Definition finished_session : @World scripted :=
  @after scripted Z
    (inflate (Some bytes8) 0 4 (array_fed false (cons (Returned (pack 8 4 true true)) nil))).

End Scripted.

(** ** Properties of the pause record *)

Section PauseTimeFacts.

Import PauseTime.
Local Open Scope float_scope.

Example pause_end_time_run :
  match new_GcPauseTimeInfo 10 2.5 4 with
  | Built p => (pause_end_time p, preceding_nongc_duration p, total_duration p)
  | Fatal _ => (nan, nan, nan)
  end = (12.5, 6, 8.5).
Proof. reflexivity. Qed.

Example negative_duration_run :
  new_GcPauseTimeInfo 10 (-1) 4 = Fatal "pause_duration must not be negative".
Proof. reflexivity. Qed.

(** A double below zero does not pass the [>= 0] test of an assertion. *)
Lemma negative_fails_ge0 (x : float) : (x <? 0) = true -> (0 <=? x) = false.
Proof.
  rewrite ltb_spec, leb_spec. unfold SFltb, SFleb.
  change (Prim2SF 0) with (S754_zero false).
  destruct (Prim2SF x) as [ [|] | [|] | | [|] m e ]; simpl; congruence.
Qed.

Lemma new_GcPauseTimeInfo_ok (s d e : float) :
  (0 <=? s) = true -> (0 <=? d) = true -> (0 <=? e) = true ->
  new_GcPauseTimeInfo s d e = Built (mkGcPauseTimeInfo s d e).
Proof.
  intros Hs Hd He. unfold new_GcPauseTimeInfo, assert.
  now rewrite Hs, Hd, He.
Qed.

(** C7: for non-negative doubles [s], [d], [e] the constructor builds an
    object whose [pause_end_time] is [s + d], whose
    [preceding_nongc_duration] is [s - e] and whose [total_duration] is
    [(s - e) + d], in double arithmetic. *)
Theorem derived_durations (s d e : float) :
  (0 <=? s) = true -> (0 <=? d) = true -> (0 <=? e) = true ->
  exists p,
    new_GcPauseTimeInfo s d e = Built p /\
    pause_end_time p = s + d /\
    preceding_nongc_duration p = s - e /\
    total_duration p = (s - e) + d.
Proof.
  intros Hs Hd He. eexists. split.
  - apply new_GcPauseTimeInfo_ok; assumption.
  - repeat split.
Qed.

Lemma derived_durations_witness :
  exists p,
    new_GcPauseTimeInfo 10 2.5 4 = Built p /\
    pause_end_time p = 10 + 2.5 /\
    preceding_nongc_duration p = 10 - 4 /\
    total_duration p = (10 - 4) + 2.5.
Proof. apply (derived_durations 10 2.5 4); reflexivity. Defined.

(** C8: when any of the three constructor arguments is below zero, an
    assertion of the constructor fails: the call ends in the fatal report
    and no object is built. *)
Theorem negative_argument_is_fatal (s d e : float) :
  (s <? 0) = true \/ (d <? 0) = true \/ (e <? 0) = true ->
  (exists msg, new_GcPauseTimeInfo s d e = Fatal msg) /\
  (forall p, new_GcPauseTimeInfo s d e <> Built p).
Proof.
  intros H.
  assert (Hf : exists msg, new_GcPauseTimeInfo s d e = Fatal msg).
  { unfold new_GcPauseTimeInfo, assert.
    destruct H as [H | [H | H]]; apply negative_fails_ge0 in H; rewrite H.
    - eexists; reflexivity.
    - destruct (0 <=? s); eexists; reflexivity.
    - destruct (0 <=? s); destruct (0 <=? d); eexists; reflexivity. }
  split; [exact Hf |].
  destruct Hf as [msg Hmsg]. intros p Hp. congruence.
Qed.

Lemma negative_argument_is_fatal_witness :
  (exists msg, new_GcPauseTimeInfo 3 (-0.5) 1 = Fatal msg) /\
  (forall p, new_GcPauseTimeInfo 3 (-0.5) 1 <> Built p).
Proof.
  apply (negative_argument_is_fatal 3 (-0.5) 1). right; left; reflexivity.
Defined.

(** C9: each mutator accepts every double without a check, returns and
    stores it, the matching accessor then returns it, and the other two
    fields keep their values; a validly constructed record can so be given
    a negative [preceding_nongc_duration]. *)
Theorem setters_store_unchecked :
  (forall p v,
     fst (set_start_time p v) = v /\
     start_time (snd (set_start_time p v)) = v /\
     duration (snd (set_start_time p v)) = duration p /\
     end_of_last_pause (snd (set_start_time p v)) = end_of_last_pause p) /\
  (forall p v,
     fst (set_duration p v) = v /\
     duration (snd (set_duration p v)) = v /\
     start_time (snd (set_duration p v)) = start_time p /\
     end_of_last_pause (snd (set_duration p v)) = end_of_last_pause p) /\
  (forall p v,
     fst (set_end_of_last_pause p v) = v /\
     end_of_last_pause (snd (set_end_of_last_pause p v)) = v /\
     start_time (snd (set_end_of_last_pause p v)) = start_time p /\
     duration (snd (set_end_of_last_pause p v)) = duration p) /\
  (exists p q,
     new_GcPauseTimeInfo 5 1 2 = Built p /\
     snd (set_start_time p (-3)) = q /\
     start_time q = -3 /\
     (preceding_nongc_duration q <? 0) = true /\
     (exists p', new_GcPauseTimeInfo 5 1 2 = Built p' /\
        (preceding_nongc_duration (snd (set_end_of_last_pause p' 9)) <? 0) = true)).
Proof.
  repeat split.
  exists (mkGcPauseTimeInfo 5 1 2). eexists.
  split; [reflexivity |]. split; [reflexivity |].
  split; [reflexivity |]. split; [reflexivity |].
  exists (mkGcPauseTimeInfo 5 1 2). split; reflexivity.
Qed.

(** X17: The constructor builds an object exactly when each of the three
    arguments passes its [>= 0] test, and then the accessors return the
    arguments; a NaN in any place, for which no comparison holds, is
    fatal, while a negative zero and an infinity pass. *)
Theorem construction_succeeds_iff (s d e : float) :
  ((exists p, new_GcPauseTimeInfo s d e = Built p) <->
   (0 <=? s) = true /\ (0 <=? d) = true /\ (0 <=? e) = true) /\
  (forall p,
     new_GcPauseTimeInfo s d e = Built p ->
     start_time p = s /\ duration p = d /\ end_of_last_pause p = e) /\
  (exists m1 m2 m3,
     new_GcPauseTimeInfo nan d e = Fatal m1 /\
     new_GcPauseTimeInfo 0 nan e = Fatal m2 /\
     new_GcPauseTimeInfo 0 0 nan = Fatal m3) /\
  (exists p, new_GcPauseTimeInfo (-0) infinity 0 = Built p).
Proof.
  split; [| split; [| split]].
  - split.
    + intros (p & Hp). unfold new_GcPauseTimeInfo, assert in Hp.
      destruct (0 <=? s), (0 <=? d), (0 <=? e); try discriminate Hp.
      repeat split.
    + intros (Hs & Hd & He). eexists.
      apply new_GcPauseTimeInfo_ok; assumption.
  - intros p Hp. unfold new_GcPauseTimeInfo, assert in Hp.
    destruct (0 <=? s), (0 <=? d), (0 <=? e); try discriminate Hp.
    injection Hp as <-. repeat split.
  - unfold new_GcPauseTimeInfo, assert.
    change (0 <=? nan) with false. change (0 <=? 0) with true. cbv iota.
    destruct (0 <=? d); eexists; eexists; eexists; repeat split.
  - eexists. reflexivity.
Qed.

End PauseTimeFacts.

(** ** Properties of the Inflater *)

Section JavaArithmetic.

Import Java.
Local Open Scope Z_scope.

Lemma iwrap_is_int (z : Z) : is_int (iwrap z).
Proof.
  unfold is_int, iwrap.
  pose proof (Z.mod_pos_bound (z + 2 ^ 31) (2 ^ 32) ltac:(lia)). lia.
Qed.

Lemma iwrap_small (z : Z) : is_int z -> iwrap z = z.
Proof.
  unfold is_int, iwrap. intros Hz.
  rewrite Z.mod_small by lia. lia.
Qed.

Lemma lwrap_small (z : Z) : is_long z -> lwrap z = z.
Proof.
  unfold is_long, lwrap. intros Hz.
  rewrite Z.mod_small by lia. lia.
Qed.

Lemma iadd_small (x y : Z) : is_int (x + y) -> iadd x y = x + y.
Proof. apply iwrap_small. Qed.

Lemma ladd_small (x y : Z) : is_long (x + y) -> ladd x y = x + y.
Proof. apply lwrap_small. Qed.

(** The difference of two ints is the int 0 only when they are equal. *)
Lemma isub_zero (x y : Z) : is_int x -> is_int y -> (isub x y = 0 <-> x = y).
Proof.
  unfold is_int, isub, iwrap. intros Hx Hy. split.
  - intros H.
    assert (Hm : (x - y + 2 ^ 31) mod 2 ^ 32 = 2 ^ 31) by lia.
    destruct (Z_lt_le_dec (x - y) (- 2 ^ 31)) as [Hlo | Hlo].
    + replace (x - y + 2 ^ 31) with ((x - y + 2 ^ 31 + 2 ^ 32) + (-1) * 2 ^ 32) in Hm by lia.
      rewrite Z.mod_add in Hm by lia. rewrite Z.mod_small in Hm by lia. lia.
    + destruct (Z_lt_le_dec (x - y) (2 ^ 31)) as [Hhi | Hhi].
      * rewrite Z.mod_small in Hm by lia. lia.
      * replace (x - y + 2 ^ 31) with ((x - y + 2 ^ 31 - 2 ^ 32) + 1 * 2 ^ 32) in Hm by lia.
        rewrite Z.mod_add in Hm by lia. rewrite Z.mod_small in Hm by lia. lia.
  - intros ->. replace (y - y + 2 ^ 31) with (2 ^ 31) by lia. reflexivity.
Qed.

End JavaArithmetic.

Section InflaterFacts.

Import Java Nio Zip.
Local Open Scope Z_scope.

Context {codec : NativeCodec}.

(** *** What a method keeps

    The lemmas on [keeps] follow the constructs the methods are written
    with. *)

Section Keeps.

Variable Q : Inflater -> Prop.

Lemma keeps_bind {A B : Type} (m : M A) (k : A -> M B) :
  keeps Q m -> (forall a, keeps Q (k a)) -> keeps Q (bind m k).
Proof.
  intros Hm Hk w HQ. unfold bind. specialize (Hm w HQ).
  destruct (m w) as [a w' | e w']; simpl in *.
  - apply Hk, Hm.
  - exact Hm.
Qed.

Lemma keeps_catch {A : Type} (body handler : M A) :
  keeps Q body -> keeps Q handler -> keeps Q (catch_DataFormatException body handler).
Proof.
  intros Hb Hh w HQ. unfold catch_DataFormatException. specialize (Hb w HQ).
  destruct (body w) as [a w' | e w']; simpl in *; [exact Hb |].
  destruct e; simpl; try exact Hb. apply Hh, Hb.
Qed.

Lemma keeps_ret {A : Type} (a : A) : keeps Q (ret a).
Proof. intros w HQ. exact HQ. Qed.

Lemma keeps_throw {A : Type} (e : Throwable) : keeps Q (throw (A := A) e).
Proof. intros w HQ. exact HQ. Qed.

Lemma keeps_get {A : Type} (f : Inflater -> A) : keeps Q (get f).
Proof. intros w HQ. exact HQ. Qed.

Lemma keeps_nonNull {A : Type} (r : option A) : keeps Q (nonNull r).
Proof. destruct r; intros w HQ; exact HQ. Qed.

Lemma keeps_checkFromIndexSize (off len n : Z) : keeps Q (checkFromIndexSize off len n).
Proof.
  unfold checkFromIndexSize. destruct (outOfBounds off len n); intros w HQ; exact HQ.
Qed.

Lemma keeps_buffer (r : BufRef) : keeps Q (buffer r).
Proof. intros w HQ. exact HQ. Qed.

Lemma keeps_Buffer_position (r : BufRef) (n : Z) : keeps Q (Buffer_position r n).
Proof.
  intros w HQ. unfold Buffer_position.
  destruct (setPosition (heap_get (heap w) r) n); exact HQ.
Qed.

Lemma keeps_ensureOpen : keeps Q ensureOpen.
Proof.
  intros w HQ. unfold ensureOpen, bind, get.
  destruct (address (this w) =? 0); exact HQ.
Qed.

Lemma keeps_modify (f : Inflater -> Inflater) :
  (forall s, Q s -> Q (f s)) -> keeps Q (modify f).
Proof. intros Hf w HQ. apply Hf, HQ. Qed.

Lemma keeps_call_inflate (native : ZStream -> NativeOutcome * ZStream) :
  (forall c p s, Q s -> Q (set_outputConsumed p (set_inputConsumed c s))) ->
  keeps Q (call_inflate native).
Proof.
  intros Hf w HQ. unfold call_inflate.
  destruct (native (zstream w)) as [[r | c p] z]; simpl; [exact HQ | apply Hf, HQ].
Qed.

Lemma keeps_call_void (native : ZStream -> option Throwable * ZStream) :
  keeps Q (call_void native).
Proof.
  intros w HQ. unfold call_void.
  destruct (native (zstream w)) as [[e |] z]; exact HQ.
Qed.

Lemma keeps_call_step (native : ZStream -> ZStream) : keeps Q (call_step native).
Proof. intros w HQ. exact HQ. Qed.

Lemma keeps_when (c : bool) (m : M unit) : keeps Q m -> keeps Q (when c m).
Proof. intros Hm. destruct c; [exact Hm | apply keeps_ret]. Qed.

End Keeps.

(** One step of a proof that a method keeps a property of the fields. *)
Ltac keeps_step :=
  first
    [ apply keeps_bind; [| intros ?]
    | apply keeps_catch
    | apply keeps_ret
    | apply keeps_throw
    | apply keeps_get
    | apply keeps_nonNull
    | apply keeps_checkFromIndexSize
    | apply keeps_buffer
    | apply keeps_Buffer_position
    | apply keeps_ensureOpen
    | apply keeps_call_void
    | apply keeps_call_step
    | apply keeps_when
    | match goal with
      | |- keeps _ (match ?x with _ => _ end) => destruct x
      end ].

Ltac keeps_source :=
  cbv zeta;
  repeat
    first
      [ keeps_step
      | apply keeps_call_inflate;
        intros ? ? ? (? & ? & ? & ?); split; [| split; [| split]]; assumption
      | apply keeps_modify;
        intros ? (? & ? & ? & ?); split; [| split; [| split]];
        solve [assumption | apply iwrap_is_int] ].

Lemma inflate_keeps_source i a l (output : option ByteArray) (off len : Z) :
  keeps (source_is i a l) (inflate output off len).
Proof. unfold inflate. keeps_source. Qed.

Lemma inflate_bytes_keeps_source i a l (output : option ByteArray) :
  keeps (source_is i a l) (inflate_bytes output).
Proof. unfold inflate_bytes. keeps_source. Qed.

Lemma inflate_buffer_keeps_source i a l (output : option BufRef) :
  keeps (source_is i a l) (inflate_buffer output).
Proof. unfold inflate_buffer. keeps_source. Qed.

Lemma setDictionary_keeps_source i a l (d : option ByteArray) (off len : Z) :
  keeps (source_is i a l) (setDictionary d off len).
Proof. unfold setDictionary. keeps_source. Qed.

Lemma setDictionary_bytes_keeps_source i a l (d : option ByteArray) :
  keeps (source_is i a l) (setDictionary_bytes d).
Proof. unfold setDictionary_bytes. keeps_source. Qed.

Lemma setDictionary_buffer_keeps_source i a l (d : option BufRef) :
  keeps (source_is i a l) (setDictionary_buffer d).
Proof. unfold setDictionary_buffer. keeps_source. Qed.

(** Getters, and every method that ends before it writes a field, keep
    whatever holds of the fields. *)
Lemma observers_keep (Q : Inflater -> Prop) :
  keeps Q getRemaining /\ keeps Q needsInput /\ keeps Q needsDictionary /\
  keeps Q finished /\ keeps Q getAdler /\ keeps Q getBytesRead /\
  keeps Q getTotalIn /\ keeps Q getBytesWritten /\ keeps Q getTotalOut /\
  keeps Q hasPendingOutput.
Proof.
  repeat split;
    unfold getRemaining, needsInput, needsDictionary, finished, getAdler,
      getBytesRead, getTotalIn, getBytesWritten, getTotalOut, hasPendingOutput;
    repeat keeps_step; intros w HQ; exact HQ.
Qed.

(** *** The invariant of the reachable states *)

Lemma source_is_gives_inv {A : Type} (m : M A) :
  (forall i a l, keeps (source_is i a l) m) -> keeps session_inv m.
Proof.
  intros Hm w (Hone & Hpos & Hlim).
  destruct (Hm (input (this w)) (inputArray (this w)) (inputLim (this w)) w)
    as (Hi & Ha & Hl & Hp).
  { split; [| split; [| split]]; try reflexivity. exact Hpos. }
  unfold session_inv, one_input_source.
  rewrite Hi, Ha, Hl. split; [exact Hone | split; assumption].
Qed.

(** Running a method to its end on symbolic fields. *)
Ltac run_method :=
  unfold setInput_bytes, setInput, setInput_buffer, reset, close, end_,
    InflaterZStreamRef_clean, InflaterZStreamRef_run, getTotalIn, getTotalOut,
    getBytesRead, getBytesWritten, getAdler, needsInput, getRemaining, needsDictionary,
    finished, hasPendingOutput, ensureOpen, checkFromIndexSize, nonNull,
    call_step, when, modify, get, buffer, bind, ret, throw;
  cbn.

Lemma setInput_keeps_inv (a : option ByteArray) (off len : Z) :
  is_int off -> keeps session_inv (setInput a off len).
Proof.
  intros Hoff w Hinv. run_method. destruct a as [arr |]; cbn; [| exact Hinv].
  destruct (outOfBounds off len (alength arr)); cbn; [exact Hinv |].
  split; [| split; [exact Hoff | apply iwrap_is_int]].
  left. split; [reflexivity | discriminate].
Qed.

Lemma setInput_bytes_keeps_inv (a : option ByteArray) :
  keeps session_inv (setInput_bytes a).
Proof.
  intros w Hinv. unfold setInput_bytes, bind, nonNull.
  destruct a as [arr |]; cbn; [| exact Hinv].
  apply (setInput_keeps_inv (Some arr) 0 (alength arr)); [| exact Hinv].
  unfold is_int; lia.
Qed.

Lemma setInput_buffer_keeps_inv (b : option BufRef) :
  keeps session_inv (setInput_buffer b).
Proof.
  intros w (Hone & Hpos & Hlim). run_method. destruct b as [r |]; cbn.
  - split; [| split; assumption]. right. split; [discriminate | reflexivity].
  - split; [| split]; assumption.
Qed.

Lemma reset_keeps_inv : keeps session_inv reset.
Proof.
  intros w (Hone & Hpos & Hlim). run_method.
  destruct (address (this w) =? 0); cbn.
  - split; [| split]; assumption.
  - split; [| split; assumption]. right. split; [discriminate | reflexivity].
Qed.

Lemma end_keeps_inv : keeps session_inv end_.
Proof.
  intros w (Hone & Hpos & Hlim). run_method.
  destruct (address (this w) =? 0) eqn:E; cbn; rewrite ?E; cbn.
  - split; [| split]; assumption.
  - split; [| split; assumption]. right. split; [discriminate | reflexivity].
Qed.

Lemma run_keeps_inv (c : Call) (w : World) :
  well_typed c -> session_inv (this w) -> session_inv (this (run c w)).
Proof.
  intros Hc Hinv.
  destruct (observers_keep session_inv)
    as (H1 & H2 & H3 & H4 & H5 & H6 & H7 & H8 & H9 & H10).
  destruct c; simpl run;
    try solve [ exact (H1 w Hinv) | exact (H2 w Hinv) | exact (H3 w Hinv)
              | exact (H4 w Hinv) | exact (H5 w Hinv) | exact (H6 w Hinv)
              | exact (H7 w Hinv) | exact (H8 w Hinv) | exact (H9 w Hinv)
              | exact (H10 w Hinv) ].
  - apply setInput_keeps_inv; [apply Hc | exact Hinv].
  - apply setInput_bytes_keeps_inv, Hinv.
  - apply setInput_buffer_keeps_inv, Hinv.
  - apply source_is_gives_inv; [intros; apply setDictionary_keeps_source | exact Hinv].
  - apply source_is_gives_inv; [intros; apply setDictionary_bytes_keeps_source | exact Hinv].
  - apply source_is_gives_inv; [intros; apply setDictionary_buffer_keeps_source | exact Hinv].
  - apply source_is_gives_inv; [intros; apply inflate_keeps_source | exact Hinv].
  - apply source_is_gives_inv; [intros; apply inflate_bytes_keeps_source | exact Hinv].
  - apply source_is_gives_inv; [intros; apply inflate_buffer_keeps_source | exact Hinv].
  - apply reset_keeps_inv, Hinv.
  - apply end_keeps_inv, Hinv.
  - apply end_keeps_inv, Hinv.
Qed.

Lemma new_Inflater_inv (nowrap : bool) (h : Heap) :
  session_inv (this (new_Inflater nowrap h)).
Proof.
  unfold new_Inflater. destruct (init nowrap) as [addr z]. cbn.
  split; [| split; unfold is_int; simpl; lia].
  right. split; [discriminate | reflexivity].
Qed.

Lemma reachable_inv (w : World) : reachable w -> session_inv (this w).
Proof.
  induction 1 as [nowrap h | c w Hw IH Hc | h w Hw IH].
  - apply new_Inflater_inv.
  - apply run_keeps_inv; assumption.
  - exact IH.
Qed.

(** *** The input source *)

Lemma setInput_runs (w : World) (arr : ByteArray) (off len : Z) :
  outOfBounds off len (alength arr) = false ->
  setInput (Some arr) off len w =
  Normal tt
    (mkWorld
       (set_inputLim (iadd off len)
          (set_inputPos off (set_inputArray (Some arr) (set_input None (this w)))))
       (heap w) (zstream w)).
Proof. intros Hb. run_method. rewrite Hb. reflexivity. Qed.

Lemma setInput_frame (w : World) (a : option ByteArray) (off len : Z) :
  output_state (this (after (setInput a off len w))) = output_state (this w).
Proof.
  run_method. destruct a as [arr |]; cbn; [| reflexivity].
  destruct (outOfBounds off len (alength arr)); reflexivity.
Qed.

(** C5: in every reachable state exactly one of the two input fields is
    set; a [setInput] that passes its argument check installs its own
    representation and clears the other; and no [setInput] call, however
    it ends, changes [finished], [needDict], [pendingOutput], [bytesRead]
    or [bytesWritten]. *)
Theorem one_source_last_set_wins :
  (forall w, reachable w -> one_input_source (this w)) /\
  (forall w arr off len,
     outOfBounds off len (alength arr) = false ->
     exists w',
       setInput (Some arr) off len w = Normal tt w' /\
       input (this w') = None /\ inputArray (this w') = Some arr /\
       inputPos (this w') = off /\ inputLim (this w') = iadd off len) /\
  (forall w arr,
     0 <= alength arr ->
     exists w',
       setInput_bytes (Some arr) w = Normal tt w' /\
       input (this w') = None /\ inputArray (this w') = Some arr /\
       inputPos (this w') = 0 /\ inputLim (this w') = iadd 0 (alength arr)) /\
  (forall w b,
     exists w',
       setInput_buffer (Some b) w = Normal tt w' /\
       input (this w') = Some b /\ inputArray (this w') = None) /\
  (forall w a off len,
     output_state (this (after (setInput a off len w))) = output_state (this w)) /\
  (forall w a,
     output_state (this (after (setInput_bytes a w))) = output_state (this w)) /\
  (forall w b,
     output_state (this (after (setInput_buffer b w))) = output_state (this w)).
Proof.
  split; [| split; [| split; [| split; [| split; [| split]]]]].
  - intros w Hw. apply (reachable_inv w Hw).
  - intros w arr off len Hb. eexists. split; [apply setInput_runs, Hb |].
    cbn. repeat split.
  - intros w arr Hlen. eexists. split.
    + unfold setInput_bytes, bind, nonNull, ret. apply setInput_runs.
      unfold outOfBounds. rewrite Z.gtb_ltb.
      repeat (apply orb_false_intro); apply Z.ltb_ge; lia.
    + cbn. repeat split.
  - intros w b. eexists. split; [reflexivity |]. cbn. split; reflexivity.
  - apply setInput_frame.
  - intros w a. unfold setInput_bytes, bind, nonNull.
    destruct a as [arr |]; [| reflexivity].
    exact (setInput_frame w (Some arr) 0 (alength arr)).
  - intros w b. run_method. destruct b; reflexivity.
Qed.

(** C6: in every reachable state [needsInput()] returns true exactly when
    [getRemaining()] returns 0, neither changing anything; and on a new
    Inflater [needsInput()] returns true. *)
Theorem needsInput_iff_nothing_remains :
  (forall w, reachable w ->
     exists b r,
       needsInput w = Normal b w /\ getRemaining w = Normal r w /\
       (b = true <-> r = 0)) /\
  (forall nowrap h,
     needsInput (new_Inflater nowrap h) = Normal true (new_Inflater nowrap h)).
Proof.
  split.
  - intros w Hw. destruct (reachable_inv w Hw) as (_ & Hpos & Hlim).
    run_method. destruct (input (this w)) as [b |]; cbn.
    + eexists. eexists. split; [reflexivity | split; [reflexivity |]].
      unfold hasRemaining, remaining. cbv zeta.
      destruct (Z.ltb_spec (position (heap_get (heap w) b)) (limit (heap_get (heap w) b)));
        destruct (Z.gtb_spec (limit (heap_get (heap w) b) - position (heap_get (heap w) b)) 0);
        cbn; split; intros; try lia; try discriminate; reflexivity.
    + eexists. eexists. split; [reflexivity | split; [reflexivity |]].
      rewrite Z.eqb_eq. symmetry. apply isub_zero; assumption.
  - intros nowrap h. unfold new_Inflater. destruct (init nowrap) as [addr z].
    reflexivity.
Qed.

(** *** Reset and end *)

(** C4: on an open session [reset()] ends normally; afterwards
    [getBytesRead()] and [getBytesWritten()] return 0, [finished()] and
    [needsDictionary()] return false, the input is the empty default
    buffer and [needsInput()] returns true.  On a closed session
    [reset()] throws [IllegalStateException] and the world is as it was. *)
Theorem reset_clears_session (w : World) :
  (address (this w) <> 0 ->
   exists w',
     reset w = Normal tt w' /\
     getBytesRead w' = Normal 0 w' /\
     getBytesWritten w' = Normal 0 w' /\
     finished w' = Normal false w' /\
     needsDictionary w' = Normal false w' /\
     input (this w') = Some DefaultBuf /\
     inputArray (this w') = None /\
     needsInput w' = Normal true w') /\
  (address (this w) = 0 -> reset w = Thrown closed w).
Proof.
  split; intros Ha.
  - apply Z.eqb_neq in Ha. eexists. split.
    + run_method. rewrite Ha. reflexivity.
    + run_method. rewrite Ha. repeat split.
  - run_method. rewrite Ha. reflexivity.
Qed.

(** C10: [reset()] on an open session leaves [pendingOutput] as it was:
    [hasPendingOutput()] returns after the reset what it returned before,
    while the flags and counters that [reset()] assigns are cleared. *)
Theorem reset_keeps_pendingOutput (w : World) :
  address (this w) <> 0 ->
  exists w',
    reset w = Normal tt w' /\
    hasPendingOutput w = Normal (pendingOutput (this w)) w /\
    hasPendingOutput w' = Normal (pendingOutput (this w)) w' /\
    finished_ (this w') = false /\ needDict (this w') = false /\
    bytesRead (this w') = 0 /\ bytesWritten (this w') = 0 /\
    input (this w') = Some DefaultBuf /\ inputArray (this w') = None.
Proof.
  intros Ha. apply Z.eqb_neq in Ha. eexists. split.
  - run_method. rewrite Ha. reflexivity.
  - cbn. repeat split.
Qed.

(** *** Data-format errors *)

Ltac run_inflate :=
  unfold inflate_bytes, inflate, inflate_buffer, catch_DataFormatException,
    call_inflate, Buffer_position, checkFromIndexSize, ensureOpen, nonNull,
    when, modify, get, buffer, bind, ret, throw;
  cbn.

(** A buffer accepts the position that a count within the bytes remaining
    after [q] advances [q] to. *)
Lemma setPosition_within (buf : ByteBuffer) (q n : Z) :
  0 <= q <= limit buf -> limit buf < 2 ^ 31 ->
  0 <= n <= Z.max (isub (limit buf) q) 0 ->
  setPosition buf (iadd q n) = Some (moved buf (q + n)).
Proof.
  intros Hq Hlim Hn.
  assert (Hsub : isub (limit buf) q = limit buf - q).
  { apply iwrap_small. unfold is_int. lia. }
  rewrite Hsub in Hn.
  assert (Hadd : iadd q n = q + n).
  { apply iadd_small. unfold is_int. lia. }
  unfold setPosition. rewrite Hadd.
  replace (q + n >? limit buf) with false
    by (symmetry; rewrite Z.gtb_ltb; apply Z.ltb_ge; lia).
  replace (q + n <? 0) with false
    by (symmetry; apply Z.ltb_ge; lia).
  reflexivity.
Qed.

Lemma setPosition_advance (buf : ByteBuffer) (n : Z) :
  wf_buffer buf ->
  0 <= n <= Z.max (isub (limit buf) (position buf)) 0 ->
  setPosition buf (iadd (position buf) n) = Some (moved buf (position buf + n)).
Proof.
  intros (Hpos & Hlim & Hcap) Hn. apply setPosition_within; [exact Hpos | lia | exact Hn].
Qed.

(** Moving the position of one buffer changes no other field of any. *)
Lemma limit_after_move (h : Heap) (b out : BufRef) (n : Z) :
  limit (heap_get (heap_set h b (moved (heap_get h b) n)) out) =
  limit (heap_get h out).
Proof.
  destruct b as [| l], out as [| l']; cbn; try reflexivity.
  destruct (Nat.eqb_spec l' l) as [-> | _]; reflexivity.
Qed.

Lemma moved_after_move (h : Heap) (b out : BufRef) (n m : Z) :
  moved (heap_get (heap_set h b (moved (heap_get h b) n)) out) m =
  moved (heap_get h out) m.
Proof.
  destruct b as [| l], out as [| l']; cbn; try reflexivity.
  destruct (Nat.eqb_spec l' l) as [-> | _]; reflexivity.
Qed.

Lemma heap_get_set_other (h : Heap) (r r' : BufRef) (buf : ByteBuffer) :
  r' <> r -> heap_get (heap_set h r buf) r' = heap_get h r'.
Proof.
  destruct r as [| l], r' as [| l']; cbn; try reflexivity.
  intros Hne. destruct (Nat.eqb_spec l' l) as [-> | _]; [congruence | reflexivity].
Qed.

Lemma inflate_data_format_error
  (w : World) (out : ByteArray) (off len c p : Z) (z' : ZStream) :
  address (this w) <> 0 ->
  outOfBounds off len (alength out) = false ->
  wf_input w ->
  inflate_native w out off len = (DataFormatError c p, z') ->
  0 <= c <= input_length w ->
  exists w',
    inflate (Some out) off len w = Thrown DataFormatException w' /\
    input_position w' = input_position w + c /\
    getBytesRead w' = Normal (ladd (bytesRead (this w)) c) w' /\
    getBytesWritten w' = Normal (ladd (bytesWritten (this w)) p) w'.
Proof.
  intros Ha Hb Hwf Hn Hc. apply Z.eqb_neq in Ha.
  unfold inflate_native in Hn. unfold wf_input in Hwf.
  unfold input_length in Hc. unfold input_position.
  run_inflate. rewrite Hb. cbn. rewrite Ha. cbn.
  destruct (input (this w)) as [b |] eqn:Hi; cbn.
  - destruct (isDirect (heap_get (heap w) b)); cbn; rewrite Hn; cbn;
      rewrite (setPosition_advance _ _ Hwf Hc); cbn;
      (eexists; split; [reflexivity |]); cbn; rewrite Hi;
      (split; [| split; run_method; rewrite Ha; reflexivity]);
      (destruct b as [| l]; cbn; [cbn in Hc; lia | now rewrite Nat.eqb_refl]).
  - rewrite Hn. cbn. eexists. split; [reflexivity |]. cbn. rewrite Hi.
    split; [| split; run_method; rewrite Ha; reflexivity].
    cbn. destruct Hwf as (Hpos & Hlim). unfold isub in Hc.
    rewrite iwrap_small in Hc by (unfold is_int; lia).
    apply iadd_small. unfold is_int. lia.
Qed.

Lemma setPosition_output (h : Heap) (b out : BufRef) (n p : Z) :
  wf_buffer (heap_get h out) ->
  0 <= p <= Z.max (isub (limit (heap_get h out)) (position (heap_get h out))) 0 ->
  setPosition (heap_get (heap_set h b (moved (heap_get h b) n)) out)
    (iadd (position (heap_get h out)) p) =
  Some (moved (heap_get h out) (position (heap_get h out) + p)).
Proof.
  intros (Hpos & Hlim & Hcap) Hp.
  rewrite setPosition_within; rewrite ?limit_after_move; try lia; try assumption.
  rewrite moved_after_move. reflexivity.
Qed.

Lemma position_get_set (h : Heap) (r : BufRef) (buf : ByteBuffer) (q : Z) :
  (r = DefaultBuf -> q = 0) ->
  position (heap_get (heap_set h r (moved buf q)) r) = q.
Proof.
  destruct r as [| l]; cbn.
  - intros H. symmetry. apply H. reflexivity.
  - intros _. rewrite Nat.eqb_refl. reflexivity.
Qed.

(** The empty default buffer has nothing to consume or to fill. *)
Lemma default_count (r : BufRef) (h : Heap) (n : Z) :
  0 <= n <= Z.max (isub (limit (heap_get h r)) (position (heap_get h r))) 0 ->
  r = DefaultBuf -> position (heap_get h r) + n = 0.
Proof. intros Hn ->. cbn in *. lia. Qed.

Lemma inflate_buffer_data_format_error
  (w : World) (out : BufRef) (c p : Z) (z' : ZStream) :
  address (this w) <> 0 ->
  isReadOnly (heap_get (heap w) out) = false ->
  wf_input w ->
  wf_buffer (heap_get (heap w) out) ->
  inflate_buffer_native w out = (DataFormatError c p, z') ->
  0 <= c <= input_length w ->
  0 <= p <= output_length w out ->
  exists w',
    inflate_buffer (Some out) w = Thrown DataFormatException w' /\
    (input (this w) <> Some out -> input_position w' = input_position w + c) /\
    getBytesRead w' = Normal (ladd (bytesRead (this w)) c) w' /\
    getBytesWritten w' = Normal (ladd (bytesWritten (this w)) p) w' /\
    position (heap_get (heap w') out) = position (heap_get (heap w) out) + p.
Proof.
  intros Ha Hro Hwf Hwo Hn Hc Hp. apply Z.eqb_neq in Ha.
  unfold inflate_buffer_native in Hn. unfold wf_input in Hwf.
  unfold input_length in Hc. unfold output_length in Hp. unfold input_position.
  cbv zeta in Hn, Hp.
  run_inflate. rewrite Hro. cbn. rewrite Ha. cbn.
  destruct (input (this w)) as [b |] eqn:Hi; cbn.
  - destruct (isDirect (heap_get (heap w) b)), (isDirect (heap_get (heap w) out));
      cbn; rewrite Hn; cbn;
      rewrite (setPosition_advance _ _ Hwf Hc); cbn;
      rewrite (setPosition_output _ _ _ _ _ Hwo Hp); cbn;
      (eexists; split; [reflexivity |]); cbn; rewrite Hi;
      (split; [| split; [run_method; rewrite Ha; reflexivity
                        | split; [run_method; rewrite Ha; reflexivity |]]]);
      try (apply position_get_set; apply default_count; exact Hp);
      (intros Hne; rewrite heap_get_set_other by congruence;
       apply position_get_set; apply default_count; exact Hc).
  - destruct (isDirect (heap_get (heap w) out));
      cbn; rewrite Hn; cbn;
      rewrite (setPosition_advance _ _ Hwo Hp); cbn;
      (eexists; split; [reflexivity |]); cbn; rewrite Hi;
      (split; [| split; [run_method; rewrite Ha; reflexivity
                        | split; [run_method; rewrite Ha; reflexivity |]]]);
      try (apply position_get_set; apply default_count; exact Hp);
      (intros _; cbn; destruct Hwf as (Hpos & Hlim); unfold isub in Hc;
       rewrite iwrap_small in Hc by (unfold is_int; lia);
       apply iadd_small; unfold is_int; lia).
Qed.

(** C1: an inflate call on an open session whose native call reports a
    data-format error, with counts within the lengths it was handed, ends
    in [DataFormatException] after committing them: the position of the
    active input source has advanced by the consumed count, and
    [getBytesRead()] and [getBytesWritten()] have grown by the consumed and
    the produced count ([long] additions).  This holds for the byte-array
    and for the ByteBuffer output; with a ByteBuffer output its position
    advances by the produced count as well, and the statement about the
    input position is for an output buffer that is not the input buffer
    itself. *)
Theorem data_format_error_commits_progress :
  (forall (w : World) (out : ByteArray) (off len c p : Z) (z' : ZStream),
     address (this w) <> 0 ->
     outOfBounds off len (alength out) = false ->
     wf_input w ->
     inflate_native w out off len = (DataFormatError c p, z') ->
     0 <= c <= input_length w ->
     exists w',
       inflate (Some out) off len w = Thrown DataFormatException w' /\
       input_position w' = input_position w + c /\
       getBytesRead w' = Normal (ladd (bytesRead (this w)) c) w' /\
       getBytesWritten w' = Normal (ladd (bytesWritten (this w)) p) w') /\
  (forall (w : World) (out : BufRef) (c p : Z) (z' : ZStream),
     address (this w) <> 0 ->
     isReadOnly (heap_get (heap w) out) = false ->
     wf_input w ->
     wf_buffer (heap_get (heap w) out) ->
     inflate_buffer_native w out = (DataFormatError c p, z') ->
     0 <= c <= input_length w ->
     0 <= p <= output_length w out ->
     exists w',
       inflate_buffer (Some out) w = Thrown DataFormatException w' /\
       (input (this w) <> Some out -> input_position w' = input_position w + c) /\
       getBytesRead w' = Normal (ladd (bytesRead (this w)) c) w' /\
       getBytesWritten w' = Normal (ladd (bytesWritten (this w)) p) w' /\
       position (heap_get (heap w') out) = position (heap_get (heap w) out) + p).
Proof.
  split.
  - intros w out off len c p z' Ha Hb Hwf Hn Hc.
    exact (inflate_data_format_error w out off len c p z' Ha Hb Hwf Hn Hc).
  - intros w out c p z' Ha Hro Hwf Hwo Hn Hc Hp.
    exact (inflate_buffer_data_format_error w out c p z' Ha Hro Hwf Hwo Hn Hc Hp).
Qed.

(** *** The closed session *)

Lemma end_closes (w : World) : address (this (after (end_ w))) = 0.
Proof.
  run_method. destruct (address (this w) =? 0) eqn:E; cbn; rewrite ?E; cbn.
  - apply Z.eqb_eq, E.
  - reflexivity.
Qed.

Lemma outOfBounds_whole (n : Z) : 0 <= n -> outOfBounds 0 n n = false.
Proof.
  intros Hn. unfold outOfBounds. rewrite Z.gtb_ltb.
  repeat (apply orb_false_intro); apply Z.ltb_ge; lia.
Qed.

Ltac run_closed Hc :=
  unfold setDictionary_bytes, setDictionary, setDictionary_buffer, call_void;
  run_inflate; run_method; rewrite ?Hc; cbn.

(** C2, as the code has it: [end()] zeroes the address, and on a closed
    session a further [end()] or [close()] returns normally and changes
    nothing; [setDictionary], [inflate], [getAdler], [getBytesRead],
    [getBytesWritten], [getTotalIn], [getTotalOut] and [reset], called with
    arguments that pass their own checks, throw [IllegalStateException]
    and change nothing; the [setInput] methods do not look at the address
    and install the input as on an open session. *)
Theorem closed_session_calls (w : World) :
  let w1 := after (end_ w) in
  address (this w1) = 0 /\
  end_ w1 = Normal tt w1 /\
  close w1 = Normal tt w1 /\
  (forall d off len,
     outOfBounds off len (alength d) = false ->
     setDictionary (Some d) off len w1 = Thrown closed w1) /\
  (forall d, 0 <= alength d -> setDictionary_bytes (Some d) w1 = Thrown closed w1) /\
  (forall d, setDictionary_buffer (Some d) w1 = Thrown closed w1) /\
  (forall out off len,
     outOfBounds off len (alength out) = false ->
     inflate (Some out) off len w1 = Thrown closed w1) /\
  (forall out, 0 <= alength out -> inflate_bytes (Some out) w1 = Thrown closed w1) /\
  (forall out,
     isReadOnly (heap_get (heap w1) out) = false ->
     inflate_buffer (Some out) w1 = Thrown closed w1) /\
  getAdler w1 = Thrown closed w1 /\
  getBytesRead w1 = Thrown closed w1 /\
  getBytesWritten w1 = Thrown closed w1 /\
  getTotalIn w1 = Thrown closed w1 /\
  getTotalOut w1 = Thrown closed w1 /\
  reset w1 = Thrown closed w1 /\
  (forall arr off len,
     outOfBounds off len (alength arr) = false ->
     exists w2,
       setInput (Some arr) off len w1 = Normal tt w2 /\
       inputArray (this w2) = Some arr /\ input (this w2) = None /\
       address (this w2) = 0) /\
  (forall b,
     exists w2,
       setInput_buffer (Some b) w1 = Normal tt w2 /\
       input (this w2) = Some b /\ inputArray (this w2) = None /\
       address (this w2) = 0).
Proof.
  intros w1. assert (Hc : address (this w1) = 0) by apply end_closes.
  clearbody w1.
  split; [exact Hc |].
  split; [run_closed Hc; reflexivity |].
  split; [run_closed Hc; reflexivity |].
  split; [intros d off len Hb; run_closed Hc; rewrite Hb; cbn; rewrite Hc; reflexivity |].
  split; [intros d Hd; run_closed Hc; rewrite (outOfBounds_whole _ Hd); cbn;
          rewrite Hc; reflexivity |].
  split; [intros d; run_closed Hc; reflexivity |].
  split; [intros out off len Hb; run_closed Hc; rewrite Hb; cbn; rewrite Hc;
          reflexivity |].
  split; [intros out Hd; run_closed Hc; rewrite (outOfBounds_whole _ Hd); cbn;
          rewrite Hc; reflexivity |].
  split; [intros out Hro; run_closed Hc; rewrite Hro; cbn; rewrite Hc; reflexivity |].
  split; [run_closed Hc; reflexivity |].
  split; [run_closed Hc; reflexivity |].
  split; [run_closed Hc; reflexivity |].
  split; [run_closed Hc; reflexivity |].
  split; [run_closed Hc; reflexivity |].
  split; [run_closed Hc; reflexivity |].
  split.
  - intros arr off len Hb. eexists. split; [apply setInput_runs, Hb |].
    cbn. repeat split. exact Hc.
  - intros b. eexists. split; [reflexivity |]. cbn. repeat split. exact Hc.
Qed.

(** *** The pending-output flag *)

(** No path of [inflate(ByteBuffer)] assigns [pendingOutput]. *)
Lemma inflate_buffer_keeps_pendingOutput (v : bool) (output : option BufRef) :
  keeps (fun s => pendingOutput s = v) (inflate_buffer output).
Proof.
  unfold inflate_buffer. cbv zeta.
  repeat first
    [ keeps_step
    | apply keeps_call_inflate; intros ? ? ? H; exact H
    | apply keeps_modify; intros ? H; exact H ].
Qed.

Lemma result_read_nonneg (result : Z) : 0 <= result_read result.
Proof. unfold result_read. apply Z.land_nonneg. right. lia. Qed.

(** [inflate(byte[],int,int)] assigns the flag on every normal return. *)
Lemma inflate_sets_pendingOutput
  (w : World) (out : ByteArray) (off len result : Z) (z' : ZStream) :
  address (this w) <> 0 ->
  outOfBounds off len (alength out) = false ->
  wf_input w ->
  inflate_native w out off len = (Returned result, z') ->
  result_read result <= input_length w ->
  exists w',
    inflate (Some out) off len w = Normal (result_written result) w' /\
    finished_ (this w') = finished_ (this w) || result_finished result /\
    pendingOutput (this w') =
      (result_written result =? len) && negb (finished_ (this w')).
Proof.
  intros Ha Hb Hwf Hn Hr. apply Z.eqb_neq in Ha.
  pose proof (result_read_nonneg result) as Hr0.
  unfold inflate_native in Hn. unfold wf_input in Hwf. unfold input_length in Hr.
  run_inflate. rewrite Hb. cbn. rewrite Ha. cbn.
  destruct (input (this w)) as [b |] eqn:Hi; cbn.
  - destruct (isDirect (heap_get (heap w) b)); cbn; rewrite Hn; cbn;
      destruct (result_finished result) eqn:E1, (finished_ (this w)) eqn:E2,
        (result_written result =? len) eqn:E3, (result_needDict result) eqn:E4,
        (result_read result >? 0) eqn:E5;
      repeat (cbn; rewrite ?E1, ?E2, ?E3, ?E4, ?E5,
                ?(setPosition_advance _ _ Hwf (conj Hr0 Hr)));
      eexists; (split; [reflexivity |]); cbn; rewrite ?E2; split; reflexivity.
  - rewrite Hn; cbn;
      destruct (result_finished result) eqn:E1, (finished_ (this w)) eqn:E2,
        (result_written result =? len) eqn:E3, (result_needDict result) eqn:E4;
      repeat (cbn; rewrite ?E1, ?E2, ?E3, ?E4);
      eexists; (split; [reflexivity |]); cbn; rewrite ?E2; split; reflexivity.
Qed.

(** *** Which method writes which field *)

(** A method that keeps every value of a field leaves the field as it was. *)
Lemma keeps_field {A B : Type} (f : Inflater -> B) (m : M A) :
  (forall v, keeps (fun s => f s = v) m) ->
  forall w, f (this (after (m w))) = f (this w).
Proof. intros Hm w. apply (Hm (f (this w)) w). reflexivity. Qed.

(** A proof that a method never assigns a field: every [modify] on its
    paths is by another setter. *)
Ltac keeps_frame :=
  unfold setInput_bytes, setInput, setInput_buffer, setDictionary_bytes,
    setDictionary, setDictionary_buffer, inflate_bytes, inflate, inflate_buffer,
    reset, close, end_, InflaterZStreamRef_clean, InflaterZStreamRef_run,
    getTotalIn, getTotalOut, getBytesRead, getBytesWritten, getAdler, needsInput,
    getRemaining, needsDictionary, finished, hasPendingOutput;
  cbv zeta;
  repeat first
    [ keeps_step
    | apply keeps_call_inflate; intros ? ? ? H; exact H
    | apply keeps_modify; intros ? H; exact H
    | intros ? H; exact H ].

Ltac frame_of_call f :=
  intros c w; destruct c; unfold run; try exact I;
  apply (keeps_field f); intros v; keeps_frame.

Lemma pendingOutput_frame :
  forall (c : Call) (w : World),
    match c with
    | call_inflate_range _ _ _ | call_inflate_bytes _ => True
    | _ => pendingOutput (this (run c w)) = pendingOutput (this w)
    end.
Proof. frame_of_call pendingOutput. Qed.

(** X4: Only the two byte-array inflate methods ever assign [pendingOutput]:
    every other call, however it ends, leaves [hasPendingOutput()] as it
    was. *)
Theorem pendingOutput_written_by_array_inflate_only :
  forall (c : Call) (w : World),
    match c with
    | call_inflate_range _ _ _ | call_inflate_bytes _ => True
    | _ => pendingOutput (this (run c w)) = pendingOutput (this w)
    end.
Proof.
  intros c w. pose proof (pendingOutput_frame c w) as H.
  destruct c; exact H.
Qed.

Lemma bytesRead_frame :
  forall (c : Call) (w : World),
    match c with
    | call_inflate_range _ _ _ | call_inflate_bytes _ | call_inflate_buffer _
    | call_reset => True
    | _ => bytesRead (this (run c w)) = bytesRead (this w)
    end.
Proof. frame_of_call bytesRead. Qed.

Lemma bytesWritten_frame :
  forall (c : Call) (w : World),
    match c with
    | call_inflate_range _ _ _ | call_inflate_bytes _ | call_inflate_buffer _
    | call_reset => True
    | _ => bytesWritten (this (run c w)) = bytesWritten (this w)
    end.
Proof. frame_of_call bytesWritten. Qed.

Lemma address_frame :
  forall (c : Call) (w : World),
    match c with
    | call_end | call_close => True
    | _ => address (this (run c w)) = address (this w)
    end.
Proof. frame_of_call address. Qed.

(** X5: Only the inflate methods and [reset()] ever assign the two counters. *)
Theorem counters_written_by_inflate_and_reset_only :
  forall (c : Call) (w : World),
    match c with
    | call_inflate_range _ _ _ | call_inflate_bytes _ | call_inflate_buffer _
    | call_reset => True
    | _ => bytesRead (this (run c w)) = bytesRead (this w) /\
           bytesWritten (this (run c w)) = bytesWritten (this w)
    end.
Proof.
  intros c w.
  pose proof (bytesRead_frame c w) as Hr.
  pose proof (bytesWritten_frame c w) as Hw.
  destruct c; try exact I; split; assumption.
Qed.

(** X6: The address of the native stream is only ever assigned by [end()] and
    [close()], and then to zero: no call reopens a closed session, and no
    other call closes an open one. *)
Theorem address_written_by_end_only :
  forall (c : Call) (w : World),
    match c with
    | call_end | call_close => address (this (run c w)) = 0
    | _ => address (this (run c w)) = address (this w)
    end.
Proof.
  intros c w. pose proof (address_frame c w) as Ha.
  destruct c; try exact Ha; apply end_closes.
Qed.

(** *** Flags that stay set *)

Ltac keeps_true :=
  unfold setInput_bytes, setInput, setInput_buffer, setDictionary_bytes,
    setDictionary, setDictionary_buffer, inflate_bytes, inflate, inflate_buffer,
    reset, close, end_, InflaterZStreamRef_clean, InflaterZStreamRef_run,
    getTotalIn, getTotalOut, getBytesRead, getBytesWritten, getAdler, needsInput,
    getRemaining, needsDictionary, finished, hasPendingOutput;
  cbv zeta;
  repeat first
    [ keeps_step
    | apply keeps_call_inflate; let HQ := fresh in intros ? ? ? HQ; exact HQ
    | apply keeps_modify;
      let HQ := fresh in intros ? HQ; first [exact HQ | reflexivity]
    | let HQ := fresh in intros ? HQ; exact HQ ].

(** X7: Once the end of the stream was reached, [finished()] stays true through
    every call but [reset()]; once a dictionary was asked for,
    [needsDictionary()] stays true through every call but [setDictionary]
    and [reset()]. *)
Theorem flags_stay_set (c : Call) (w : World) :
  (finished_ (this w) = true ->
   match c with
   | call_reset => True
   | _ => finished_ (this (run c w)) = true
   end) /\
  (needDict (this w) = true ->
   match c with
   | call_reset | call_setDictionary _ _ _ | call_setDictionary_bytes _
   | call_setDictionary_buffer _ => True
   | _ => needDict (this (run c w)) = true
   end).
Proof.
  split; intros H; destruct c; unfold run; try exact I;
    match goal with
    | |- ?f (this (after (?m w))) = true =>
        assert (Hk : keeps (fun s => f s = true) m) by keeps_true;
        exact (Hk w H)
    end.
Qed.

(** *** Releasing the native stream *)

(** X8: [run()] of the stream reference zeroes the address and calls the native
    [end] exactly when the address was not zero before; a second [run()],
    from the cleaner or from [end()], finds the address zero and does
    nothing. *)
Theorem run_releases_once (w : World) :
  exists w',
    InflaterZStreamRef_run w = Normal tt w' /\
    address (this w') = 0 /\
    zstream w' =
      (if address (this w) =? 0 then zstream w
       else native_end (zstream w) (address (this w))) /\
    InflaterZStreamRef_run w' = Normal tt w'.
Proof.
  run_method. destruct (address (this w) =? 0) eqn:E; cbn.
  - eexists. split; [reflexivity |]. cbn.
    split; [reflexivity | split; [reflexivity |]].
    apply Z.eqb_eq in E. destruct w as [s h z]. cbn in *. destruct s; cbn in *.
    subst. reflexivity.
  - eexists. split; [reflexivity |]. cbn. repeat split.
Qed.

(** X9: [end()] on an open session releases the native stream and discards the
    input: afterwards the address is zero, [getRemaining()] returns 0 and
    [needsInput()] true, whatever input was set; the flags, the counters
    and the caller's buffers are left as they were. *)
Theorem end_discards_input (w : World) :
  address (this w) <> 0 ->
  exists w',
    end_ w = Normal tt w' /\
    address (this w') = 0 /\
    zstream w' = native_end (zstream w) (address (this w)) /\
    heap w' = heap w /\
    getRemaining w' = Normal 0 w' /\
    needsInput w' = Normal true w' /\
    output_state (this w') = output_state (this w).
Proof.
  intros Ha. apply Z.eqb_neq in Ha. run_method. rewrite Ha. cbn. rewrite Ha. cbn.
  eexists. split; [reflexivity |]. cbn. repeat split.
Qed.

(** *** Setting input and asking for what remains *)

(** X10: After [setInput(input, off, len)] on a range of an array,
    [getRemaining()] returns [len] and [needsInput()] is true exactly for
    an empty range; after [setInput(buffer)], [getRemaining()] is the
    buffer's remaining count.  The array range set is well formed. *)
Theorem setInput_then_getRemaining :
  (forall (w : World) (arr : ByteArray) (off len : Z),
     outOfBounds off len (alength arr) = false ->
     alength arr < 2 ^ 31 ->
     exists w',
       setInput (Some arr) off len w = Normal tt w' /\
       getRemaining w' = Normal len w' /\
       needsInput w' = Normal (len =? 0) w' /\
       wf_input w') /\
  (forall (w : World) (b : BufRef),
     exists w',
       setInput_buffer (Some b) w = Normal tt w' /\
       getRemaining w' = Normal (remaining (heap_get (heap w) b)) w' /\
       needsInput w' = Normal (negb (hasRemaining (heap_get (heap w) b))) w').
Proof.
  split.
  - intros w arr off len Hb Hlen.
    assert (Hr : 0 <= off /\ 0 <= len /\ off + len <= alength arr).
    { unfold outOfBounds in Hb. rewrite Z.gtb_ltb in Hb.
      repeat (apply orb_false_elim in Hb; destruct Hb as [Hb ?]).
      repeat match goal with H : (_ <? _) = false |- _ => apply Z.ltb_ge in H end.
      lia. }
    assert (Hadd : iadd off len = off + len).
    { apply iadd_small. unfold is_int. lia. }
    eexists. split; [apply setInput_runs, Hb |].
    run_method. rewrite Hadd. unfold wf_input. cbn.
    split; [| split; [| lia]].
    + f_equal. unfold isub. replace (off + len - off) with len by lia.
      apply iwrap_small. unfold is_int. lia.
    + f_equal. destruct (Z.eqb_spec (off + len) off), (Z.eqb_spec len 0);
        try reflexivity; lia.
  - intros w b. eexists. split; [reflexivity |]. split; reflexivity.
Qed.

(** *** Argument checks *)

(** X11: The argument checks come before the test for a closed session and
    before any assignment: a range outside the array ends [setInput],
    [setDictionary] and [inflate] in [ArrayIndexOutOfBoundsException], a
    [null] argument ends every method that takes one in
    [NullPointerException], a read-only output buffer ends
    [inflate(ByteBuffer)] in [ReadOnlyBufferException]; each time, on an
    open session as on a closed one, nothing has changed. *)
Theorem argument_checks_come_first (w : World) :
  (forall arr off len,
     outOfBounds off len (alength arr) = true ->
     setInput (Some arr) off len w = Thrown ArrayIndexOutOfBoundsException w /\
     setDictionary (Some arr) off len w = Thrown ArrayIndexOutOfBoundsException w /\
     inflate (Some arr) off len w = Thrown ArrayIndexOutOfBoundsException w) /\
  (forall off len,
     setInput None off len w = Thrown NullPointerException w /\
     setDictionary None off len w = Thrown NullPointerException w /\
     inflate None off len w = Thrown NullPointerException w) /\
  (setInput_bytes None w = Thrown NullPointerException w /\
   setInput_buffer None w = Thrown NullPointerException w /\
   setDictionary_bytes None w = Thrown NullPointerException w /\
   setDictionary_buffer None w = Thrown NullPointerException w /\
   inflate_bytes None w = Thrown NullPointerException w /\
   inflate_buffer None w = Thrown NullPointerException w) /\
  (forall out,
     isReadOnly (heap_get (heap w) out) = true ->
     inflate_buffer (Some out) w = Thrown ReadOnlyBufferException w).
Proof.
  split; [| split; [| split]].
  - intros arr off len Hb.
    repeat split; unfold setDictionary; run_inflate; run_method;
      rewrite Hb; reflexivity.
  - intros off len. repeat split.
  - repeat split.
  - intros out Hro. run_inflate. rewrite Hro. reflexivity.
Qed.

(** *** The int totals *)

Lemma iwrap_congruent (z : Z) : (iwrap z - z) mod 2 ^ 32 = 0.
Proof.
  unfold iwrap.
  rewrite (Z.mod_eq (z + 2 ^ 31) (2 ^ 32)) by lia.
  replace (z + 2 ^ 31 - 2 ^ 32 * ((z + 2 ^ 31) / 2 ^ 32) - 2 ^ 31 - z)
    with ((- ((z + 2 ^ 31) / 2 ^ 32)) * 2 ^ 32) by lia.
  apply Z.mod_mul. lia.
Qed.

(** X12: On an open session [getTotalIn()] and [getTotalOut()] return the low 32
    bits of the [long] counters as an [int]: the value of [getBytesRead()]
    or [getBytesWritten()] whenever that fits an [int], and otherwise an
    [int] that differs from it by a multiple of 2^32. *)
Theorem getTotal_truncates (w : World) :
  address (this w) <> 0 ->
  exists n m,
    getTotalIn w = Normal n w /\ getTotalOut w = Normal m w /\
    is_int n /\ is_int m /\
    (n - bytesRead (this w)) mod 2 ^ 32 = 0 /\
    (m - bytesWritten (this w)) mod 2 ^ 32 = 0 /\
    (is_int (bytesRead (this w)) -> getTotalIn w = getBytesRead w) /\
    (is_int (bytesWritten (this w)) -> getTotalOut w = getBytesWritten w).
Proof.
  intros Ha. apply Z.eqb_neq in Ha.
  exists (iwrap (bytesRead (this w))), (iwrap (bytesWritten (this w))).
  run_method. rewrite Ha.
  split; [reflexivity | split; [reflexivity |]].
  split; [apply iwrap_is_int | split; [apply iwrap_is_int |]].
  split; [apply iwrap_congruent | split; [apply iwrap_congruent |]].
  split; intros Hi; rewrite (iwrap_small _ Hi); reflexivity.
Qed.

(** *** Preset dictionaries *)

(** X13: [setDictionary] on an open session hands the range to the native codec
    and, when that accepts it, clears [needDict] and changes no other
    field; when the codec throws, the exception goes to the caller and
    [needDict] is left as it was.  [setDictionary(ByteBuffer)] also
    consumes the buffer: its position ends at its limit. *)
Theorem setDictionary_clears_needDict :
  (forall (w : World) (d : ByteArray) (off len : Z) (z' : ZStream),
     address (this w) <> 0 ->
     outOfBounds off len (alength d) = false ->
     native_setDictionary (zstream w) (address (this w)) d off len = (None, z') ->
     setDictionary (Some d) off len w =
     Normal tt (mkWorld (set_needDict false (this w)) (heap w) z')) /\
  (forall (w : World) (d : ByteArray) (off len : Z) (e : Throwable) (z' : ZStream),
     address (this w) <> 0 ->
     outOfBounds off len (alength d) = false ->
     native_setDictionary (zstream w) (address (this w)) d off len = (Some e, z') ->
     setDictionary (Some d) off len w = Thrown e (mkWorld (this w) (heap w) z')) /\
  (forall (w : World) (d : BufRef) (z' : ZStream),
     address (this w) <> 0 ->
     wf_buffer (heap_get (heap w) d) ->
     setDictionary_buffer_native w d = (None, z') ->
     exists w',
       setDictionary_buffer (Some d) w = Normal tt w' /\
       needsDictionary w' = Normal false w' /\
       position (heap_get (heap w') d) = limit (heap_get (heap w) d) /\
       remaining (heap_get (heap w') d) = 0 /\
       zstream w' = z' /\
       this w' = set_needDict false (this w)) /\
  (forall (w : World) (d : BufRef) (e : Throwable) (z' : ZStream),
     address (this w) <> 0 ->
     setDictionary_buffer_native w d = (Some e, z') ->
     setDictionary_buffer (Some d) w = Thrown e (mkWorld (this w) (heap w) z')).
Proof.
  split; [| split; [| split]].
  - intros w d off len z' Ha Hb Hn. apply Z.eqb_neq in Ha.
    run_closed Ha. rewrite Hb. cbn. rewrite Ha. cbn. rewrite Hn. reflexivity.
  - intros w d off len e z' Ha Hb Hn. apply Z.eqb_neq in Ha.
    run_closed Ha. rewrite Hb. cbn. rewrite Ha. cbn. rewrite Hn. reflexivity.
  - intros w d z' Ha Hwf Hn. apply Z.eqb_neq in Ha.
    unfold setDictionary_buffer_native in Hn. cbv zeta in Hn.
    assert (Hrem : 0 <= Z.max (isub (limit (heap_get (heap w) d))
                                 (position (heap_get (heap w) d))) 0
                   <= Z.max (isub (limit (heap_get (heap w) d))
                                 (position (heap_get (heap w) d))) 0) by lia.
    assert (Hend : position (heap_get (heap w) d)
                   + Z.max (isub (limit (heap_get (heap w) d))
                              (position (heap_get (heap w) d))) 0
                   = limit (heap_get (heap w) d)).
    { destruct Hwf as (Hpos & Hlim & Hcap). unfold isub.
      rewrite iwrap_small by (unfold is_int; lia). lia. }
    run_closed Ha.
    destruct (isDirect (heap_get (heap w) d)); cbn; rewrite Hn; cbn;
      rewrite (setPosition_advance _ _ Hwf Hrem); cbn;
      rewrite Hend;
      (eexists; split; [reflexivity |]); cbn;
      (split; [reflexivity |]);
      assert (Hp : position (heap_get (heap_set (heap w) d
                      (moved (heap_get (heap w) d) (limit (heap_get (heap w) d)))) d)
                   = limit (heap_get (heap w) d))
        by (apply position_get_set; intros ->; reflexivity);
      (split; [exact Hp |]);
      (split; [| split; reflexivity]);
      unfold remaining; cbv zeta;
      rewrite (limit_after_move (heap w) d d), Hp;
      rewrite Z.sub_diag; reflexivity.
  - intros w d e z' Ha Hn. apply Z.eqb_neq in Ha.
    unfold setDictionary_buffer_native in Hn. cbv zeta in Hn.
    run_closed Ha.
    destruct (isDirect (heap_get (heap w) d)); cbn; rewrite Hn; reflexivity.
Qed.

(** *** Normal returns of inflate *)

Lemma result_read_range (result : Z) : 0 <= result_read result < 2 ^ 31.
Proof.
  unfold result_read. split; [apply Z.land_nonneg; right; lia |].
  change 2147483647 with (Z.ones 31). rewrite Z.land_ones by lia.
  apply Z.mod_pos_bound. lia.
Qed.

Lemma result_written_range (result : Z) : 0 <= result_written result < 2 ^ 31.
Proof.
  unfold result_written. split; [apply Z.land_nonneg; right; lia |].
  change 2147483647 with (Z.ones 31). rewrite Z.land_ones by lia.
  apply Z.mod_pos_bound. lia.
Qed.

(** What [remaining()] returns for a well-formed buffer is the length the
    inflate methods compute from its limit and position. *)
Lemma remaining_wf (buf : ByteBuffer) :
  wf_buffer buf -> remaining buf = Z.max (isub (limit buf) (position buf)) 0.
Proof.
  intros (Hpos & Hlim & Hcap). unfold remaining, isub. cbv zeta.
  rewrite iwrap_small by (unfold is_int; lia).
  destruct (Z.gtb_spec (limit buf - position buf) 0); lia.
Qed.

Lemma position_after_advance (h : Heap) (b : BufRef) (n : Z) :
  0 <= n <= Z.max (isub (limit (heap_get h b)) (position (heap_get h b))) 0 ->
  position
    (heap_get (heap_set h b (moved (heap_get h b) (position (heap_get h b) + n))) b)
  = position (heap_get h b) + n.
Proof. intros Hn. apply position_get_set. apply default_count. exact Hn. Qed.

Lemma remaining_after_advance (h : Heap) (b : BufRef) (n : Z) :
  wf_buffer (heap_get h b) ->
  0 <= n <= Z.max (isub (limit (heap_get h b)) (position (heap_get h b))) 0 ->
  remaining
    (heap_get (heap_set h b (moved (heap_get h b) (position (heap_get h b) + n))) b)
  = Z.max (isub (limit (heap_get h b)) (position (heap_get h b))) 0 - n.
Proof.
  intros Hwf Hn. pose proof Hwf as (Hpos & Hlim & Hcap).
  unfold remaining. cbv zeta.
  rewrite limit_after_move, (position_after_advance h b n Hn).
  unfold isub in *. rewrite iwrap_small in * by (unfold is_int; lia).
  destruct (Z.gtb_spec (limit (heap_get h b) - (position (heap_get h b) + n)) 0); lia.
Qed.

Lemma needs_wf (buf : ByteBuffer) :
  wf_buffer buf ->
  negb (hasRemaining buf) = (Z.max (isub (limit buf) (position buf)) 0 =? 0).
Proof.
  intros (Hpos & Hlim & Hcap). unfold hasRemaining, isub.
  rewrite iwrap_small by (unfold is_int; lia).
  destruct (Z.ltb_spec (position buf) (limit buf)),
    (Z.eqb_spec (Z.max (limit buf - position buf) 0) 0); cbn; try reflexivity; lia.
Qed.

Lemma needs_after_advance (h : Heap) (b : BufRef) (n : Z) :
  wf_buffer (heap_get h b) ->
  0 <= n <= Z.max (isub (limit (heap_get h b)) (position (heap_get h b))) 0 ->
  negb (hasRemaining
          (heap_get (heap_set h b (moved (heap_get h b) (position (heap_get h b) + n))) b))
  = (Z.max (isub (limit (heap_get h b)) (position (heap_get h b))) 0 - n =? 0).
Proof.
  intros Hwf Hn. pose proof Hwf as (Hpos & Hlim & Hcap).
  unfold hasRemaining.
  rewrite limit_after_move, (position_after_advance h b n Hn).
  unfold isub in *. rewrite iwrap_small in * by (unfold is_int; lia).
  destruct (Z.ltb_spec (position (heap_get h b) + n) (limit (heap_get h b))),
    (Z.eqb_spec (Z.max (limit (heap_get h b) - position (heap_get h b)) 0 - n) 0);
    cbn; try reflexivity; lia.
Qed.

Lemma not_gtb_0 (n : Z) : 0 <= n -> (n >? 0) = false -> n = 0.
Proof. intros Hn H. rewrite Z.gtb_ltb in H. apply Z.ltb_ge in H. lia. Qed.

(** X1: a byte-array inflate on an open session whose native call
    returns, having read no more than it was handed, returns the count
    written; the input position has advanced by the count read,
    [getRemaining()] is smaller by it and [needsInput()] tells whether
    anything is left, the counters have grown by the two counts, and
    [finished()] and [needsDictionary()] are true if they were before or
    the result has their bit set. *)
Lemma inflate_normal_return
  (w : World) (out : ByteArray) (off len result : Z) (z' : ZStream) :
  address (this w) <> 0 ->
  outOfBounds off len (alength out) = false ->
  wf_input w ->
  inflate_native w out off len = (Returned result, z') ->
  result_read result <= input_length w ->
  exists w',
    inflate (Some out) off len w = Normal (result_written result) w' /\
    input_position w' = input_position w + result_read result /\
    getRemaining w' = Normal (input_length w - result_read result) w' /\
    needsInput w' = Normal (input_length w - result_read result =? 0) w' /\
    getBytesRead w' = Normal (ladd (bytesRead (this w)) (result_read result)) w' /\
    getBytesWritten w' =
      Normal (ladd (bytesWritten (this w)) (result_written result)) w' /\
    finished w' = Normal (finished_ (this w) || result_finished result) w' /\
    needsDictionary w' = Normal (needDict (this w) || result_needDict result) w'.
Proof.
  intros Ha Hb Hwf Hn Hr. apply Z.eqb_neq in Ha.
  pose proof (result_read_nonneg result) as Hr0.
  unfold inflate_native in Hn. unfold wf_input in Hwf. unfold input_length in *.
  unfold input_position.
  run_inflate. rewrite Hb. cbn. rewrite Ha. cbn.
  destruct (input (this w)) as [b |] eqn:Hi; cbn.
  - destruct (isDirect (heap_get (heap w) b)); cbn; rewrite Hn; cbn;
      destruct (result_finished result) eqn:E1, (finished_ (this w)) eqn:E2,
        (result_written result =? len) eqn:E3, (result_needDict result) eqn:E4,
        (needDict (this w)) eqn:E6,
        (result_read result >? 0) eqn:E5;
      repeat (cbn; rewrite ?E1, ?E2, ?E3, ?E4, ?E5,
                ?(setPosition_advance _ _ Hwf (conj Hr0 Hr)));
      eexists; (split; [reflexivity |]); run_method; rewrite ?Hi, ?E2, ?E6, ?Ha; cbn;
      try rewrite (not_gtb_0 _ Hr0 E5);
      rewrite ?Z.add_0_r, ?Z.sub_0_r,
        ?(position_after_advance _ _ _ (conj Hr0 Hr)),
        ?(remaining_after_advance _ _ _ Hwf (conj Hr0 Hr)),
        ?(needs_after_advance _ _ _ Hwf (conj Hr0 Hr)),
        ?(remaining_wf _ Hwf), ?(needs_wf _ Hwf);
      repeat split.
  - destruct Hwf as (Hpos & Hlim).
    assert (Hsub : isub (inputLim (this w)) (inputPos (this w))
                   = inputLim (this w) - inputPos (this w))
      by (apply iwrap_small; unfold is_int; lia).
    rewrite Hsub in Hr.
    assert (Hadd : iadd (inputPos (this w)) (result_read result)
                   = inputPos (this w) + result_read result)
      by (apply iadd_small; unfold is_int; lia).
    assert (Hrem : isub (inputLim (this w)) (inputPos (this w) + result_read result)
                   = inputLim (this w) - inputPos (this w) - result_read result)
      by (unfold isub; rewrite iwrap_small by (unfold is_int; lia); lia).
    assert (Hneed : (inputLim (this w) =? inputPos (this w) + result_read result)
                    = (inputLim (this w) - inputPos (this w) - result_read result =? 0))
      by (destruct (Z.eqb_spec (inputLim (this w)) (inputPos (this w) + result_read result)),
            (Z.eqb_spec (inputLim (this w) - inputPos (this w) - result_read result) 0);
          try reflexivity; lia).
    rewrite Hn; cbn;
      destruct (result_finished result) eqn:E1, (finished_ (this w)) eqn:E2,
        (result_written result =? len) eqn:E3, (result_needDict result) eqn:E4,
        (needDict (this w)) eqn:E6;
      repeat (cbn; rewrite ?E1, ?E2, ?E3, ?E4);
      eexists; (split; [reflexivity |]); run_method; rewrite ?Hi, ?E2, ?E6, ?Ha; cbn;
      rewrite ?Hadd, ?Hrem, ?Hneed, ?Hsub; repeat split.
Qed.

(** X2: the same for [inflate(ByteBuffer)], with a count written that fits
    the room of the output buffer: the position of the output buffer
    advances by the count written and that of an input buffer, when it is
    another object, by the count read. *)
Lemma inflate_buffer_normal_return
  (w : World) (out : BufRef) (result : Z) (z' : ZStream) :
  address (this w) <> 0 ->
  isReadOnly (heap_get (heap w) out) = false ->
  wf_input w ->
  wf_buffer (heap_get (heap w) out) ->
  inflate_buffer_native w out = (Returned result, z') ->
  result_read result <= input_length w ->
  result_written result <= output_length w out ->
  exists w',
    inflate_buffer (Some out) w = Normal (result_written result) w' /\
    (input (this w) <> Some out ->
     input_position w' = input_position w + result_read result) /\
    position (heap_get (heap w') out)
      = position (heap_get (heap w) out) + result_written result /\
    getBytesRead w' = Normal (ladd (bytesRead (this w)) (result_read result)) w' /\
    getBytesWritten w' =
      Normal (ladd (bytesWritten (this w)) (result_written result)) w' /\
    finished w' = Normal (finished_ (this w) || result_finished result) w' /\
    needsDictionary w' = Normal (needDict (this w) || result_needDict result) w'.
Proof.
  intros Ha Hro Hwf Hwo Hn Hr Hp. apply Z.eqb_neq in Ha.
  pose proof (result_read_nonneg result) as Hr0.
  pose proof (proj1 (result_written_range result)) as Hp0.
  unfold inflate_buffer_native in Hn. unfold wf_input in Hwf.
  unfold input_length in Hr. unfold output_length in Hp. unfold input_position.
  cbv zeta in Hn, Hp.
  run_inflate. rewrite Hro. cbn. rewrite Ha. cbn.
  destruct (input (this w)) as [b |] eqn:Hi; cbn.
  - destruct (isDirect (heap_get (heap w) b)), (isDirect (heap_get (heap w) out));
      cbn; rewrite Hn; cbn;
      destruct (result_finished result) eqn:E1, (finished_ (this w)) eqn:E2,
        (result_needDict result) eqn:E4, (needDict (this w)) eqn:E6;
      repeat (cbn; rewrite ?E1, ?E2, ?E4,
                ?(setPosition_advance _ _ Hwf (conj Hr0 Hr)),
                ?(setPosition_output _ _ _ _ _ Hwo (conj Hp0 Hp)));
      eexists; (split; [reflexivity |]); run_method; rewrite ?Hi, ?E2, ?E6, ?Ha; cbn;
      (split; [intros Hne; rewrite heap_get_set_other by congruence;
               apply position_get_set; apply default_count; exact (conj Hr0 Hr) |]);
      (split; [apply position_get_set; apply default_count; exact (conj Hp0 Hp) |]);
      repeat split.
  - destruct Hwf as (Hpos & Hlim).
    assert (Hsub : isub (inputLim (this w)) (inputPos (this w))
                   = inputLim (this w) - inputPos (this w))
      by (apply iwrap_small; unfold is_int; lia).
    rewrite Hsub in Hr.
    assert (Hadd : iadd (inputPos (this w)) (result_read result)
                   = inputPos (this w) + result_read result)
      by (apply iadd_small; unfold is_int; lia).
    destruct (isDirect (heap_get (heap w) out));
      cbn; rewrite Hn; cbn;
      destruct (result_finished result) eqn:E1, (finished_ (this w)) eqn:E2,
        (result_needDict result) eqn:E4, (needDict (this w)) eqn:E6;
      repeat (cbn; rewrite ?E1, ?E2, ?E4,
                ?(setPosition_advance _ _ Hwo (conj Hp0 Hp)));
      eexists; (split; [reflexivity |]); run_method; rewrite ?Hi, ?E2, ?E6, ?Ha; cbn;
      (split; [intros _; exact Hadd |]);
      (split; [apply position_get_set; apply default_count; exact (conj Hp0 Hp) |]);
      repeat split.
Qed.

(** *** Where a data-format error comes from *)

(** Case analysis on the innermost scrutinee of the goal. *)
Ltac break_match :=
  match goal with
  | |- context [match ?x with _ => _ end] =>
      lazymatch x with
      | context [match _ with _ => _ end] => fail
      | _ => destruct x eqn:?
      end
  end.

(** Rewriting with the equations a case analysis has left. *)
Ltac use_equations :=
  repeat match goal with
         | H : ?x = _ |- context [?x] => rewrite H
         end.

(** X14: An inflate call ends in [DataFormatException] only when its native call
    reported one, and then, whatever the state and the counts reported, the
    counters have grown by the two counts, the out-parameter fields are
    back at zero, and [finished], [needDict] and [pendingOutput] are as
    they were before the call. *)
Theorem data_format_error_only_from_codec :
  (forall (w w' : World) (out : ByteArray) (off len : Z),
     inflate (Some out) off len w = Thrown DataFormatException w' ->
     exists c p,
       inflate_native w out off len = (DataFormatError c p, zstream w') /\
       bytesRead (this w') = ladd (bytesRead (this w)) c /\
       bytesWritten (this w') = ladd (bytesWritten (this w)) p /\
       inputConsumed (this w') = 0 /\ outputConsumed (this w') = 0 /\
       finished_ (this w') = finished_ (this w) /\
       needDict (this w') = needDict (this w) /\
       pendingOutput (this w') = pendingOutput (this w)) /\
  (forall (w w' : World) (out : BufRef),
     inflate_buffer (Some out) w = Thrown DataFormatException w' ->
     exists c p,
       inflate_buffer_native w out = (DataFormatError c p, zstream w') /\
       bytesRead (this w') = ladd (bytesRead (this w)) c /\
       bytesWritten (this w') = ladd (bytesWritten (this w)) p /\
       inputConsumed (this w') = 0 /\ outputConsumed (this w') = 0 /\
       finished_ (this w') = finished_ (this w) /\
       needDict (this w') = needDict (this w) /\
       pendingOutput (this w') = pendingOutput (this w)).
Proof.
  split.
  - intros w w' out off len H. revert H.
    unfold inflate_native. run_inflate.
    repeat (break_match; cbn); intros H; try discriminate H.
    all: injection H as <-; cbn; eexists; eexists;
      (split; [use_equations; reflexivity |]); repeat split.
  - intros w w' out H. revert H.
    unfold inflate_buffer_native. run_inflate.
    repeat (break_match; cbn); intros H; try discriminate H.
    all: injection H as <-; cbn; eexists; eexists;
      (split; [use_equations; reflexivity |]); repeat split.
Qed.

(** *** Pending output and the end of the stream *)

Lemma finished_frame :
  forall (c : Call) (w : World),
    match c with
    | call_inflate_range _ _ _ | call_inflate_bytes _ | call_inflate_buffer _
    | call_reset => True
    | _ => finished_ (this (run c w)) = finished_ (this w)
    end.
Proof. frame_of_call finished_. Qed.

Lemma inflate_keeps_pending_means_unfinished
  (output : option ByteArray) (off len : Z) :
  keeps pending_means_unfinished (inflate output off len).
Proof.
  intros w HQ. unfold pending_means_unfinished in *. revert HQ. run_inflate.
  repeat (break_match; cbn); intros HQ Hp; try discriminate Hp;
    try (apply HQ; exact Hp); try reflexivity;
    repeat match goal with
           | H : (_ && _) = true |- _ => apply andb_prop in H; destruct H
           | H : negb _ = true |- _ => apply negb_true_iff in H
           end;
    try assumption; try congruence.
Qed.

(** X16: In a session that never calls [inflate(ByteBuffer)],
    [hasPendingOutput()] is only ever true while [finished()] is false,
    whatever the codec does. *)
Theorem pendingOutput_only_while_unfinished (w : World) :
  reachable_by_array_inflate w -> pending_means_unfinished (this w).
Proof.
  induction 1 as [nowrap h | c w Hw IH Hc | h w Hw IH].
  - unfold new_Inflater. destruct (init nowrap) as [addr z]. cbn.
    intros Hp. discriminate Hp.
  - pose proof (pendingOutput_frame c w) as Hpend.
    pose proof (finished_frame c w) as Hfin.
    destruct c; try discriminate Hc;
      try (unfold pending_means_unfinished; rewrite Hpend, Hfin; exact IH).
    + apply inflate_keeps_pending_means_unfinished, IH.
    + unfold run, inflate_bytes, bind, nonNull. destruct output as [out |]; cbn.
      * apply (inflate_keeps_pending_means_unfinished (Some out) 0 (alength out)), IH.
      * exact IH.
    + unfold run. run_method.
      destruct (address (this w) =? 0) eqn:E; cbn; [exact IH |].
      intros _. reflexivity.
  - exact IH.
Qed.

(** *** What inflate returns *)

(** X15: Whenever an inflate call returns normally, in whatever state and with
    whatever codec, the value returned is a non-negative [int], it is the
    amount by which [bytesWritten] has grown, and [bytesRead] has grown by
    a non-negative [int] as well ([long] additions). *)
Theorem inflate_returns_written_count :
  (forall (w w' : World) (output : option ByteArray) (off len n : Z),
     inflate output off len w = Normal n w' ->
     0 <= n < 2 ^ 31 /\
     bytesWritten (this w') = ladd (bytesWritten (this w)) n /\
     exists read,
       0 <= read < 2 ^ 31 /\
       bytesRead (this w') = ladd (bytesRead (this w)) read) /\
  (forall (w w' : World) (output : option BufRef) (n : Z),
     inflate_buffer output w = Normal n w' ->
     0 <= n < 2 ^ 31 /\
     bytesWritten (this w') = ladd (bytesWritten (this w)) n /\
     exists read,
       0 <= read < 2 ^ 31 /\
       bytesRead (this w') = ladd (bytesRead (this w)) read).
Proof.
  split.
  - intros w w' output off len n H. revert H. run_inflate.
    repeat (break_match; cbn); intros H; try discriminate H.
    all: injection H as <- <-; cbn;
      (split; [apply result_written_range |]); (split; [reflexivity |]);
      eexists; (split; [apply result_read_range | reflexivity]).
  - intros w w' output n H. revert H. run_inflate.
    repeat (break_match; cbn); intros H; try discriminate H.
    all: injection H as <- <-; cbn;
      (split; [apply result_written_range |]); (split; [reflexivity |]);
      eexists; (split; [apply result_read_range | reflexivity]).
Qed.

End InflaterFacts.

(** ** Runs on the scripted codec *)

Section ScriptedRuns.

Import Java Nio Zip Scripted.
Local Open Scope Z_scope.

(** The codec reports a data-format error after 3 bytes in and 5 out. *)
Lemma data_format_error_commits_progress_witness :
  (exists w',
     inflate (Some bytes32) 0 32 (array_fed false (cons (DataFormatError 3 5) nil))
       = Thrown DataFormatException w' /\
     input_position w' = 2 + 3 /\
     getBytesRead w' = Normal (ladd 100 3) w' /\
     getBytesWritten w' = Normal (ladd 200 5) w') /\
  (exists w',
     inflate_buffer (Some (UserBuf 1)) (buffer_fed false (cons (DataFormatError 3 5) nil))
       = Thrown DataFormatException w' /\
     (Some (UserBuf 0) <> Some (UserBuf 1) -> input_position w' = 2 + 3) /\
     getBytesRead w' = Normal (ladd 100 3) w' /\
     getBytesWritten w' = Normal (ladd 200 5) w' /\
     position (heap_get (heap w') (UserBuf 1)) = 2 + 5).
Proof.
  split.
  - apply (proj1 (@data_format_error_commits_progress scripted)
             (array_fed false (cons (DataFormatError 3 5) nil)) bytes32 0 32 3 5 nil).
    + discriminate.
    + reflexivity.
    + cbn. lia.
    + reflexivity.
    + vm_compute. split; discriminate.
  - apply (proj2 (@data_format_error_commits_progress scripted)
             (buffer_fed false (cons (DataFormatError 3 5) nil)) (UserBuf 1) 3 5 nil).
    + discriminate.
    + reflexivity.
    + cbn. unfold wf_buffer. cbn. lia.
    + unfold wf_buffer. cbn. lia.
    + reflexivity.
    + vm_compute. split; discriminate.
    + vm_compute. split; discriminate.
Defined.

(** When the output buffer is the input buffer itself, the position the
    caller finds is the one written last, for the output. *)
Example inflate_buffer_into_its_input :
  exists w',
    inflate_buffer (Some (UserBuf 0)) (buffer_fed false (cons (DataFormatError 3 5) nil))
      = Thrown DataFormatException w' /\
    input_position w' = 2 + 5 /\
    bytesRead (this w') = 103 /\ bytesWritten (this w') = 205.
Proof. eexists. split; [vm_compute; reflexivity |]. repeat split. Qed.

(** C1 as stated fails when the output buffer of [inflate(ByteBuffer)] is
    the input buffer itself: the session is open, the buffer writable and
    well formed, the codec reports a data-format error after 3 bytes in
    and 5 out, both within the 8 bytes it was handed; the call ends in
    [DataFormatException] with the position of the input source advanced
    by 5, the count produced, since [output.position] is assigned last,
    and so not by 3, the count consumed. *)
Lemma data_format_error_into_input_buffer :
  address (this (buffer_fed false (cons (DataFormatError 3 5) nil))) <> 0 /\
  input (this (buffer_fed false (cons (DataFormatError 3 5) nil))) = Some (UserBuf 0) /\
  isReadOnly (heap_get (heap (buffer_fed false (cons (DataFormatError 3 5) nil)))
                (UserBuf 0)) = false /\
  wf_input (buffer_fed false (cons (DataFormatError 3 5) nil)) /\
  inflate_buffer_native (buffer_fed false (cons (DataFormatError 3 5) nil)) (UserBuf 0)
    = (DataFormatError 3 5, nil) /\
  0 <= 3 <= input_length (buffer_fed false (cons (DataFormatError 3 5) nil)) /\
  0 <= 5 <= output_length (buffer_fed false (cons (DataFormatError 3 5) nil)) (UserBuf 0) /\
  (exists w',
     inflate_buffer (Some (UserBuf 0)) (buffer_fed false (cons (DataFormatError 3 5) nil))
       = Thrown DataFormatException w' /\
     input_position w'
       = input_position (buffer_fed false (cons (DataFormatError 3 5) nil)) + 5) /\
  ~ (exists w',
       inflate_buffer (Some (UserBuf 0)) (buffer_fed false (cons (DataFormatError 3 5) nil))
         = Thrown DataFormatException w' /\
       input_position w'
         = input_position (buffer_fed false (cons (DataFormatError 3 5) nil)) + 3).
Proof.
  assert (E : inflate_buffer (Some (UserBuf 0))
                (buffer_fed false (cons (DataFormatError 3 5) nil))
              = Thrown DataFormatException
                  (after (inflate_buffer (Some (UserBuf 0))
                            (buffer_fed false (cons (DataFormatError 3 5) nil)))))
    by reflexivity.
  split; [discriminate |]. split; [reflexivity |]. split; [reflexivity |].
  split; [unfold wf_input, wf_buffer; cbn; lia |]. split; [reflexivity |].
  split; [vm_compute; split; discriminate |].
  split; [vm_compute; split; discriminate |].
  split.
  - eexists. split; [exact E | reflexivity].
  - intros (w' & H & Hp). rewrite E in H. injection H as <-.
    vm_compute in Hp. discriminate Hp.
Qed.

(** C2 as stated fails at [setInput]: on the session closed by [end()],
    [setInput(bytes8, 0, 8)] returns normally with the eight bytes
    installed, and so does not end in an exception. *)
Lemma setInput_on_closed_session_succeeds :
  address (this ended) = 0 /\
  (exists w2,
     setInput (Some bytes8) 0 8 ended = Normal tt w2 /\
     getRemaining w2 = Normal 8 w2) /\
  ~ (exists e w2, setInput (Some bytes8) 0 8 ended = Thrown e w2).
Proof.
  split; [reflexivity |]. split.
  - eexists. split; [vm_compute; reflexivity | reflexivity].
  - intros (e & w2 & H). discriminate H.
Qed.

Lemma closed_session_calls_witness :
  end_ ended = Normal tt ended /\
  inflate (Some bytes32) 0 32 ended = Thrown closed ended /\
  reset ended = Thrown closed ended /\
  (exists w2, setInput (Some bytes8) 0 8 ended = Normal tt w2 /\
     inputArray (this w2) = Some bytes8 /\ input (this w2) = None /\
     address (this w2) = 0).
Proof.
  pose proof (@closed_session_calls scripted fresh) as H. cbv zeta in H.
  fold ended in H.
  destruct H as (_ & Hend & _ & _ & _ & _ & Hinf & _ & _ & _ & _ & _ & _ & _ & Hreset & Hset & _).
  split; [exact Hend |]. split; [apply Hinf; reflexivity |].
  split; [exact Hreset |]. apply Hset. reflexivity.
Defined.

(** C3, where the code departs from it: a byte-buffer inflate that fills
    the eight bytes it was given room for, on a stream that is not
    finished, leaves [pendingOutput] false, where the byte-array inflate
    of the same eight bytes sets it; and one that ends the stream leaves a
    flag that was true set. *)
Theorem inflate_buffer_misses_pendingOutput :
  (output_length (buffer_fed false (cons (Returned (pack 3 8 false false)) nil))
     (UserBuf 1) = 8 /\
   exists w',
     inflate_buffer (Some (UserBuf 1))
       (buffer_fed false (cons (Returned (pack 3 8 false false)) nil)) = Normal 8 w' /\
     finished w' = Normal false w' /\
     hasPendingOutput w' = Normal false w') /\
  (exists w',
     inflate (Some bytes8) 0 8
       (buffer_fed false (cons (Returned (pack 3 8 false false)) nil)) = Normal 8 w' /\
     finished w' = Normal false w' /\
     hasPendingOutput w' = Normal true w') /\
  (exists w',
     inflate_buffer (Some (UserBuf 1))
       (buffer_fed true (cons (Returned (pack 3 1 true false)) nil)) = Normal 1 w' /\
     finished w' = Normal true w' /\
     hasPendingOutput w' = Normal true w').
Proof.
  split; [split; [reflexivity |] | split];
    eexists; (split; [vm_compute; reflexivity |]); split; reflexivity.
Qed.

Lemma reset_clears_session_witness :
  (exists w',
     reset (array_fed true nil) = Normal tt w' /\
     getBytesRead w' = Normal 0 w' /\
     getBytesWritten w' = Normal 0 w' /\
     finished w' = Normal false w' /\
     needsDictionary w' = Normal false w' /\
     input (this w') = Some DefaultBuf /\
     inputArray (this w') = None /\
     needsInput w' = Normal true w') /\
  reset ended = Thrown closed ended.
Proof.
  split.
  - apply (proj1 (@reset_clears_session scripted (array_fed true nil))). discriminate.
  - apply (proj2 (@reset_clears_session scripted ended)). reflexivity.
Defined.

Lemma one_source_last_set_wins_witness :
  one_input_source
    (this (run (call_setInput_buffer (Some (UserBuf 3)))
             (run (call_setInput (Some bytes8) 0 8) fresh))) /\
  (exists w',
     setInput (Some bytes8) 2 5 (buffer_fed true nil) = Normal tt w' /\
     input (this w') = None /\ inputArray (this w') = Some bytes8 /\
     inputPos (this w') = 2 /\ inputLim (this w') = iadd 2 5).
Proof.
  destruct (@one_source_last_set_wins scripted) as (Hone & Hset & _).
  split.
  - apply Hone. apply reachable_call.
    + apply reachable_call.
      * apply (reachable_new false heap16).
      * cbn. unfold is_int. cbn. lia.
    + exact I.
  - apply Hset. reflexivity.
Defined.

Lemma needsInput_iff_nothing_remains_witness :
  exists b r,
    needsInput (run (call_setInput (Some bytes8) 2 5) fresh)
      = Normal b (run (call_setInput (Some bytes8) 2 5) fresh) /\
    getRemaining (run (call_setInput (Some bytes8) 2 5) fresh)
      = Normal r (run (call_setInput (Some bytes8) 2 5) fresh) /\
    (b = true <-> r = 0).
Proof.
  apply (proj1 (@needsInput_iff_nothing_remains scripted)).
  apply reachable_call.
  - apply (reachable_new false heap16).
  - cbn. unfold is_int. cbn. lia.
Defined.

Example needsInput_after_setInput :
  needsInput (run (call_setInput (Some bytes8) 2 5) fresh)
    = Normal false (run (call_setInput (Some bytes8) 2 5) fresh) /\
  getRemaining (run (call_setInput (Some bytes8) 2 5) fresh)
    = Normal 5 (run (call_setInput (Some bytes8) 2 5) fresh).
Proof. split; reflexivity. Qed.

(** A byte-array inflate that fills its four bytes sets the flag; the
    reset that follows leaves it set. *)
Lemma reset_keeps_pendingOutput_witness :
  hasPendingOutput
    (after (inflate (Some bytes8) 0 4
              (array_fed false (cons (Returned (pack 8 4 false false)) nil))))
  = Normal true
      (after (inflate (Some bytes8) 0 4
                (array_fed false (cons (Returned (pack 8 4 false false)) nil)))) /\
  exists w',
    reset (after (inflate (Some bytes8) 0 4
                    (array_fed false (cons (Returned (pack 8 4 false false)) nil))))
      = Normal tt w' /\
    hasPendingOutput w' = Normal true w' /\
    bytesRead (this w') = 0 /\ bytesWritten (this w') = 0.
Proof.
  split; [reflexivity |].
  destruct (@reset_keeps_pendingOutput scripted
              (after (inflate (Some bytes8) 0 4
                        (array_fed false (cons (Returned (pack 8 4 false false)) nil)))))
    as (w' & Hreset & _ & Hpending & _ & _ & Hread & Hwritten & _).
  - discriminate.
  - exists w'. split; [exact Hreset |]. split; [exact Hpending |].
    split; assumption.
Defined.

End ScriptedRuns.

(** ** Further runs on the scripted codec *)

Section ScriptedMore.

Import Java Nio Zip Scripted.
Local Open Scope Z_scope.

Lemma inflate_normal_return_witness :
  exists w',
    inflate (Some bytes32) 0 32 (array_fed false (cons (Returned (pack 3 5 true false)) nil))
      = Normal 5 w' /\
    input_position w' = 2 + 3 /\
    getRemaining w' = Normal (8 - 3) w' /\
    needsInput w' = Normal (8 - 3 =? 0) w' /\
    getBytesRead w' = Normal (ladd 100 3) w' /\
    getBytesWritten w' = Normal (ladd 200 5) w' /\
    finished w' = Normal true w' /\
    needsDictionary w' = Normal false w'.
Proof.
  apply (@inflate_normal_return scripted
           (array_fed false (cons (Returned (pack 3 5 true false)) nil))
           bytes32 0 32 (pack 3 5 true false) nil).
  - discriminate.
  - reflexivity.
  - cbn. lia.
  - reflexivity.
  - vm_compute. discriminate.
Defined.

Lemma inflate_buffer_normal_return_witness :
  exists w',
    inflate_buffer (Some (UserBuf 1))
      (buffer_fed false (cons (Returned (pack 3 5 false true)) nil)) = Normal 5 w' /\
    (Some (UserBuf 0) <> Some (UserBuf 1) -> input_position w' = 2 + 3) /\
    position (heap_get (heap w') (UserBuf 1)) = 2 + 5 /\
    getBytesRead w' = Normal (ladd 100 3) w' /\
    getBytesWritten w' = Normal (ladd 200 5) w' /\
    finished w' = Normal false w' /\
    needsDictionary w' = Normal true w'.
Proof.
  apply (@inflate_buffer_normal_return scripted
           (buffer_fed false (cons (Returned (pack 3 5 false true)) nil))
           (UserBuf 1) (pack 3 5 false true) nil).
  - discriminate.
  - reflexivity.
  - cbn. unfold wf_buffer. cbn. lia.
  - unfold wf_buffer. cbn. lia.
  - reflexivity.
  - vm_compute. discriminate.
  - vm_compute. discriminate.
Defined.

Lemma inflate_sets_pendingOutput_witness :
  exists w',
    inflate (Some bytes8) 0 4 (array_fed false (cons (Returned (pack 8 4 false false)) nil))
      = Normal 4 w' /\
    finished_ (this w') = false || false /\
    pendingOutput (this w') = (4 =? 4) && negb (finished_ (this w')).
Proof.
  apply (@inflate_sets_pendingOutput scripted
           (array_fed false (cons (Returned (pack 8 4 false false)) nil))
           bytes8 0 4 (pack 8 4 false false) nil).
  - discriminate.
  - reflexivity.
  - cbn. lia.
  - reflexivity.
  - vm_compute. discriminate.
Defined.

(** After the end of the stream and a request for a dictionary, a further
    inflate leaves both flags set. *)
Lemma flags_stay_set_witness :
  finished_ (this finished_session) = true /\
  needDict (this finished_session) = true /\
  finished_ (this (run (call_inflate_range (Some bytes8) 0 4) finished_session)) = true /\
  needDict (this (run (call_inflate_range (Some bytes8) 0 4) finished_session)) = true.
Proof.
  split; [reflexivity |]. split; [reflexivity |].
  destruct (@flags_stay_set scripted (call_inflate_range (Some bytes8) 0 4)
              finished_session) as (Hf & Hd).
  split; [apply Hf | apply Hd]; reflexivity.
Defined.

Lemma end_discards_input_witness :
  exists w',
    end_ (array_fed true nil) = Normal tt w' /\
    address (this w') = 0 /\
    zstream w' = nil /\
    heap w' = heap16 /\
    getRemaining w' = Normal 0 w' /\
    needsInput w' = Normal true w' /\
    output_state (this w') = (false, false, true, 100, 200).
Proof.
  apply (@end_discards_input scripted (array_fed true nil)). discriminate.
Defined.

Lemma setInput_then_getRemaining_witness :
  exists w',
    setInput (Some bytes32) 2 5 fresh = Normal tt w' /\
    getRemaining w' = Normal 5 w' /\
    needsInput w' = Normal false w' /\
    wf_input w'.
Proof.
  apply (proj1 (@setInput_then_getRemaining scripted) fresh bytes32 2 5).
  - reflexivity.
  - reflexivity.
Defined.

(** The range 4..12 of an eight-byte array is refused before the closed
    session is noticed. *)
Lemma argument_checks_come_first_witness :
  (setInput (Some bytes8) 4 8 ended = Thrown ArrayIndexOutOfBoundsException ended /\
   setDictionary (Some bytes8) 4 8 ended = Thrown ArrayIndexOutOfBoundsException ended /\
   inflate (Some bytes8) 4 8 ended = Thrown ArrayIndexOutOfBoundsException ended) /\
  inflate_buffer (Some (UserBuf 1))
    (@mkWorld scripted (this ended)
       (fun _ => mkByteBuffer 0 8 8 false true 0 bytes8 0) nil)
  = Thrown ReadOnlyBufferException
      (@mkWorld scripted (this ended)
         (fun _ => mkByteBuffer 0 8 8 false true 0 bytes8 0) nil).
Proof.
  split.
  - apply (proj1 (@argument_checks_come_first scripted ended) bytes8 4 8). reflexivity.
  - apply (proj2 (proj2 (proj2 (@argument_checks_come_first scripted
             (@mkWorld scripted (this ended)
                (fun _ => mkByteBuffer 0 8 8 false true 0 bytes8 0) nil))))).
    reflexivity.
Defined.

Lemma getTotal_truncates_witness :
  exists n m,
    getTotalIn (array_fed false nil) = Normal n (array_fed false nil) /\
    getTotalOut (array_fed false nil) = Normal m (array_fed false nil) /\
    is_int n /\ is_int m /\
    (n - 100) mod 2 ^ 32 = 0 /\
    (m - 200) mod 2 ^ 32 = 0 /\
    (is_int 100 -> getTotalIn (array_fed false nil) = getBytesRead (array_fed false nil)) /\
    (is_int 200 -> getTotalOut (array_fed false nil) = getBytesWritten (array_fed false nil)).
Proof. apply (@getTotal_truncates scripted (array_fed false nil)). discriminate. Defined.

Lemma setDictionary_clears_needDict_witness :
  setDictionary (Some bytes8) 0 8 wanting_dictionary
    = Normal tt (@mkWorld scripted (set_needDict false (this wanting_dictionary)) heap16 nil) /\
  setDictionary (Some bytes8) 0 8 wanting_dictionary_refused
    = Thrown IllegalArgumentException wanting_dictionary_refused /\
  (exists w',
     setDictionary_buffer (Some (UserBuf 2)) wanting_dictionary = Normal tt w' /\
     needsDictionary w' = Normal false w' /\
     position (heap_get (heap w') (UserBuf 2)) = 10 /\
     remaining (heap_get (heap w') (UserBuf 2)) = 0 /\
     zstream w' = nil /\
     this w' = set_needDict false (this wanting_dictionary)) /\
  setDictionary_buffer (Some (UserBuf 2)) wanting_dictionary_refused
    = Thrown IllegalArgumentException wanting_dictionary_refused.
Proof.
  split; [| split; [| split]].
  - apply (proj1 (@setDictionary_clears_needDict scripted)
             wanting_dictionary bytes8 0 8 nil); [discriminate | reflexivity | reflexivity].
  - apply (proj1 (proj2 (@setDictionary_clears_needDict refusing))
             wanting_dictionary_refused bytes8 0 8 IllegalArgumentException nil);
      [discriminate | reflexivity | reflexivity].
  - apply (proj1 (proj2 (proj2 (@setDictionary_clears_needDict scripted)))
             wanting_dictionary (UserBuf 2) nil);
      [discriminate | unfold wf_buffer; cbn; lia | reflexivity].
  - apply (proj2 (proj2 (proj2 (@setDictionary_clears_needDict refusing)))
             wanting_dictionary_refused (UserBuf 2) IllegalArgumentException nil);
      [discriminate | reflexivity].
Defined.

Lemma data_format_error_only_from_codec_witness :
  exists c p,
    inflate_native (array_fed true (cons (DataFormatError 3 5) nil)) bytes32 0 32
      = (DataFormatError c p, nil) /\
    bytesRead (this (after (inflate (Some bytes32) 0 32
                              (array_fed true (cons (DataFormatError 3 5) nil)))))
      = ladd 100 c /\
    bytesWritten (this (after (inflate (Some bytes32) 0 32
                                 (array_fed true (cons (DataFormatError 3 5) nil)))))
      = ladd 200 p.
Proof.
  destruct (proj1 (@data_format_error_only_from_codec scripted)
              (array_fed true (cons (DataFormatError 3 5) nil))
              (after (inflate (Some bytes32) 0 32
                        (array_fed true (cons (DataFormatError 3 5) nil))))
              bytes32 0 32)
    as (c & p & Hn & Hr & Hw & _).
  - reflexivity.
  - exists c, p. split; [exact Hn | split; [exact Hr | exact Hw]].
Defined.

Lemma inflate_returns_written_count_witness :
  0 <= 5 < 2 ^ 31 /\
  bytesWritten (this (after (inflate (Some bytes32) 0 32
                               (array_fed false (cons (Returned (pack 3 5 false false)) nil)))))
    = ladd 200 5 /\
  exists read,
    0 <= read < 2 ^ 31 /\
    bytesRead (this (after (inflate (Some bytes32) 0 32
                              (array_fed false (cons (Returned (pack 3 5 false false)) nil)))))
      = ladd 100 read.
Proof.
  apply (proj1 (@inflate_returns_written_count scripted)
           (array_fed false (cons (Returned (pack 3 5 false false)) nil))
           (after (inflate (Some bytes32) 0 32
                     (array_fed false (cons (Returned (pack 3 5 false false)) nil))))
           (Some bytes32) 0 32 5).
  reflexivity.
Defined.

(** A request for no bytes at all is filled entirely, so it announces
    pending output; the stream has not finished. *)
Lemma pendingOutput_only_while_unfinished_witness :
  pendingOutput (this (run (call_inflate_range (Some bytes8) 0 0) fresh)) = true /\
  pending_means_unfinished (this (run (call_inflate_range (Some bytes8) 0 0) fresh)).
Proof.
  split; [reflexivity |].
  apply (@pendingOutput_only_while_unfinished scripted).
  apply by_array_call; [apply (by_array_new false heap16) | reflexivity].
Defined.

End ScriptedMore.
